(** * Go-TransferScript: bulk GitHub repository transfer (main.go)

    A shallow embedding of [main.go]: the configuration check of
    [loadConfig], the request and the status switch of [transferRepo], the
    worker pool of [main] (two buffered channels, a WaitGroup, one goroutine
    per worker) as an interleaving step function, and the final tally that
    re-reads the result messages with [fmt.Sscanf].

    Go strings are byte sequences: they are [string] (a list of [ascii]).
    Go's [int] is [Z]; the two counters of the summary are [nat] (they only
    count up from zero and are bounded by the number of repositories).
    Log output (logrus) is not part of the state, with one exception: the
    messages the summary loop reads are kept in [seen]. *)

From Stdlib Require Import ZArith String Ascii DecimalString Decimal Lia.
From stdpp Require Import base list strings gmap relations.

Open Scope Z_scope.

(** ** The pieces of Go's [fmt] the program uses *)

Module fmt.

Definition rune := Z.

(** The verb [%d] on an [int]. *)
Definition d (n : Z) : string := NilZero.string_of_int (Z.to_int n).

Definition byte (a : ascii) : Z := Z.of_N (N_of_ascii a).

Definition RuneError : rune := 0xFFFD.

(** [utf8.first] and [utf8.acceptRanges]: for a leading byte of a
    multi-byte sequence, its length and the range of the second byte. *)
Definition first (p0 : Z) : option (Z * Z * Z) :=
  if (0xC2 <=? p0) && (p0 <=? 0xDF) then Some (2, 0x80, 0xBF)
  else if p0 =? 0xE0 then Some (3, 0xA0, 0xBF)
  else if (0xE1 <=? p0) && (p0 <=? 0xEC) then Some (3, 0x80, 0xBF)
  else if p0 =? 0xED then Some (3, 0x80, 0x9F)
  else if (0xEE <=? p0) && (p0 <=? 0xEF) then Some (3, 0x80, 0xBF)
  else if p0 =? 0xF0 then Some (4, 0x90, 0xBF)
  else if (0xF1 <=? p0) && (p0 <=? 0xF3) then Some (4, 0x80, 0xBF)
  else if p0 =? 0xF4 then Some (4, 0x80, 0x8F)
  else None.

Definition within (lo hi b : Z) : bool := (lo <=? b) && (b <=? hi).

(** [utf8.DecodeRuneInString]: the first rune of a string and its width in
    bytes; a byte that starts no valid sequence is [RuneError], one byte
    wide. *)
Definition DecodeRune (s : string) : rune * nat :=
  match s with
  | EmptyString => (RuneError, 0%nat)
  | String a s1 =>
      let p0 := byte a in
      if p0 <? 0x80 then (p0, 1%nat)
      else
        match first p0 with
        | None => (RuneError, 1%nat)
        | Some (sz, lo, hi) =>
            match s1 with
            | EmptyString => (RuneError, 1%nat)
            | String a1 s2 =>
                let b1 := byte a1 in
                if negb (within lo hi b1) then (RuneError, 1%nat)
                else if sz <=? 2 then
                  (Z.lor (Z.shiftl (Z.land p0 0x1F) 6) (Z.land b1 0x3F), 2%nat)
                else
                  match s2 with
                  | EmptyString => (RuneError, 1%nat)
                  | String a2 s3 =>
                      let b2 := byte a2 in
                      if negb (within 0x80 0xBF b2) then (RuneError, 1%nat)
                      else if sz <=? 3 then
                        (Z.lor (Z.shiftl (Z.land p0 0x0F) 12)
                           (Z.lor (Z.shiftl (Z.land b1 0x3F) 6)
                              (Z.land b2 0x3F)),
                         3%nat)
                      else
                        match s3 with
                        | EmptyString => (RuneError, 1%nat)
                        | String a3 s4 =>
                            let b3 := byte a3 in
                            if negb (within 0x80 0xBF b3) then
                              (RuneError, 1%nat)
                            else
                              (Z.lor (Z.shiftl (Z.land p0 0x07) 18)
                                 (Z.lor (Z.shiftl (Z.land b1 0x3F) 12)
                                    (Z.lor (Z.shiftl (Z.land b2 0x3F) 6)
                                       (Z.land b3 0x3F))),
                               4%nat)
                        end
                  end
            end
        end
  end.

(** The runes a reader yields for a string: [DecodeRune] again and again,
    each time past the bytes of the rune just read. *)
Fixpoint runes (s : string) : list rune :=
  match s with
  | EmptyString => []
  | String a s1 =>
      let '(r, size) := DecodeRune (String a s1) in
      r :: match size, s1 with
           | 2%nat, String _ s2 => runes s2
           | 3%nat, String _ (String _ s3) => runes s3
           | 4%nat, String _ (String _ (String _ s4)) => runes s4
           | _, _ => runes s1
           end
  end.

(** [isSpace] of scan.go: the table [space]. *)
Definition isSpace (r : rune) : bool :=
  within 0x0009 0x000d r || (r =? 0x0020) || (r =? 0x0085) || (r =? 0x00a0)
  || (r =? 0x1680) || within 0x2000 0x200a r || within 0x2028 0x2029 r
  || (r =? 0x202f) || (r =? 0x205f) || (r =? 0x3000).

Inductive ScanError :=
| ErrUnexpectedEOF      (* io.ErrUnexpectedEOF *)
| ErrNoMatch            (* "input does not match format" *)
| ErrNewline.           (* "unexpected newline" *)

(** [ss.advance] on a format piece free of blanks and of [%]: every rune
    must be read ([mustReadRune]) and be the one of the format. *)
Fixpoint advance (format input : list rune) : ScanError + list rune :=
  match format with
  | [] => inr input
  | fmtc :: format' =>
      match input with
      | [] => inl ErrUnexpectedEOF
      | inputc :: input' =>
          if fmtc =? inputc then advance format' input' else inl ErrNoMatch
      end
  end.

(** [ss.SkipSpace] with [nlIsSpace] unset, as [Sscanf] runs it: blanks are
    dropped, a newline is an error. *)
Fixpoint SkipSpace (input : list rune) : ScanError + list rune :=
  match input with
  | [] => inr []
  | r :: rest =>
      if r =? 10 then inl ErrNewline
      else if isSpace r then SkipSpace rest
      else inr input
  end.

(** [ss.token(true, notSpace)] after the blanks are gone: the next word
    and what follows it. *)
Fixpoint token (input : list rune) : list rune * list rune :=
  match input with
  | [] => ([], [])
  | r :: rest =>
      if isSpace r then ([], input)
      else let '(w, rest') := token rest in (r :: w, rest')
  end.

(** [fmt.Sscanf(str, lit + "%s", new(string))] for a literal [lit] free of
    blanks and of [%]: the literal, then [SkipSpace], then [convertString]
    ([notEOF], [token]).  [inr w] is a nil error (one operand stored, the
    word [w]); text after the word is left unread.  The scanner's read
    limit of [1 << 30] runes is not modelled. *)
Definition Sscanf_lit_s (lit str : string) : ScanError + list rune :=
  match advance (runes lit) (runes str) with
  | inl e => inl e
  | inr rest =>
      match SkipSpace rest with
      | inl e => inl e
      | inr [] => inl ErrUnexpectedEOF
      | inr (r :: rest') => inr (fst (token (r :: rest')))
      end
  end.

End fmt.

(** ** config.json *)

Record Config := {
  OriginalUser : string;
  NewUser : string;
  Repositories : list string
}.

(** What [loadConfig] gets from the file system and from [encoding/json]:
    [os.ReadFile] gives the bytes or an error text, [json.Unmarshal] into a
    [Config] gives the decoded value or an error text (a key absent from
    the document leaves the field at its zero value). *)
Record FileSystem := {
  ReadFile : string -> string + string;
  Unmarshal : string -> string + Config
}.

Definition loadConfig (fs : FileSystem) (filePath : string) : string + Config :=
  match ReadFile fs filePath with
  | inl err => inl ("failed to read config file " +:+ filePath +:+ ": " +:+ err)
  | inr data =>
      match Unmarshal fs data with
      | inl err =>
          inl ("failed to unmarshal config data from " +:+ filePath +:+ ": " +:+ err)
      | inr config =>
          if bool_decide (OriginalUser config = "" ∨ NewUser config = "") then
            inl "originalUser and newUser must be specified in config"
          else if (length (Repositories config) =? 0)%nat then
            inl "repositories list cannot be empty in config"
          else inr config
      end
  end.

(** ** The pieces of resty (github.com/go-resty/resty/v2) the program uses *)

Module resty.

(** [time.Duration] counts nanoseconds. *)
Definition Millisecond : Z := 1000000.
Definition Second : Z := 1000 * Millisecond.

(** The retry count is never negative in this program: it is [nat]. *)
Record Client := {
  RetryCount : nat;
  RetryWaitTime : Z;
  RetryMaxWaitTime : Z;
  CloseConnection : bool
}.

Definition New : Client :=
  {| RetryCount := 0;
     RetryWaitTime := 100 * Millisecond;
     RetryMaxWaitTime := 2000 * Millisecond;
     CloseConnection := false |}.

Definition SetRetryCount (count : nat) (c : Client) : Client :=
  {| RetryCount := count;
     RetryWaitTime := RetryWaitTime c;
     RetryMaxWaitTime := RetryMaxWaitTime c;
     CloseConnection := CloseConnection c |}.

Definition SetRetryWaitTime (waitTime : Z) (c : Client) : Client :=
  {| RetryCount := RetryCount c;
     RetryWaitTime := waitTime;
     RetryMaxWaitTime := RetryMaxWaitTime c;
     CloseConnection := CloseConnection c |}.

Definition SetRetryMaxWaitTime (maxWaitTime : Z) (c : Client) : Client :=
  {| RetryCount := RetryCount c;
     RetryWaitTime := RetryWaitTime c;
     RetryMaxWaitTime := maxWaitTime;
     CloseConnection := CloseConnection c |}.

Definition SetCloseConnection (close : bool) (c : Client) : Client :=
  {| RetryCount := RetryCount c;
     RetryWaitTime := RetryWaitTime c;
     RetryMaxWaitTime := RetryMaxWaitTime c;
     CloseConnection := close |}.

(** A request: the body is the Go map handed to [SetBody]; header names
    are kept as the program writes them (net/http sends them in canonical
    case, and HTTP compares them without regard to case). *)
Record Request := {
  Method : string;
  URL : string;
  Header : gmap string string;
  Body : option (gmap string string)
}.

Definition R (c : Client) : Request :=
  {| Method := ""; URL := ""; Header := ∅; Body := None |}.

Definition SetBody (body : gmap string string) (r : Request) : Request :=
  {| Method := Method r; URL := URL r; Header := Header r; Body := Some body |}.

Definition SetHeader (header value : string) (r : Request) : Request :=
  {| Method := Method r; URL := URL r;
     Header := <[header := value]> (Header r); Body := Body r |}.

(** [handleContentType] of the request middleware: a request with a body
    and no Content-Type gets the detected one, which for a map is JSON. *)
Definition handleContentType (r : Request) : Request :=
  match Body r, Header r !! "Content-Type" with
  | Some _, None => SetHeader "Content-Type" "application/json" r
  | _, _ => r
  end.

(** What comes back: [res.StatusCode()] and [res.String()]. *)
Record Response := {
  StatusCode : Z;
  String_ : string
}.

(** One execution of a request by the client ([client.execute]): the
    request is refused before anything is sent (an error of the request
    middleware, which [parseRequestURL] returns for a URL that [url.Parse]
    rejects; the library marks it as not to be retried), or it is sent and
    the transport fails (no response), or it is sent and a response comes
    back. *)
Inductive Attempt :=
| Refused (err : string)
| Failed (err : string)
| Answered (res : Response).

(** What lies beyond [Backoff] during one call of [Post]: the outcome of the
    execution number [n] (from 0) of the request it is given, and the random
    draw the library takes before the sleep that follows it.  The outcome is
    a function of the request: the URL is text here, and what the client and
    the remote make of it (whether it parses, which path it names, what the
    remote answers to this Authorization header) is the wire's part. *)
Record Wire := {
  execute : Request -> nat -> Attempt;
  jitter : nat -> Z
}.

Definition MaxInt64 : Z := 9223372036854775807.

(** [jitterBackoff] of retry.go: a capped exponential, half of it fixed
    and half drawn, never below [min].  (The library computes in float64,
    which is exact for durations below 2^53 ns.) *)
Definition jitterBackoff (min max : Z) (attempt : nat) (draw : Z) : Z :=
  let temp := Z.min max (min * 2 ^ Z.of_nat attempt) in
  let ri := temp / 2 in
  let ri := if ri <=? 0 then MaxInt64 else ri in
  let result := ri + draw mod ri in
  if result <? min then min else result.

(** [Backoff] of retry.go with no retry condition installed:
    [for attempt := 0; attempt <= maxRetries; attempt++], a transport
    error asks for a retry, a response ends the loop, so does an error
    marked as not to be retried, and there is no sleep after the last
    attempt.  [left] is [maxRetries - attempt].  The result: the executions
    made, the sleeps between them, and the outcome of the last execution. *)
Fixpoint backoffLoop (c : Client) (w : Wire) (rq : Request) (left attempt : nat)
  : nat * list Z * Attempt :=
  match execute w rq attempt with
  | Answered res => (S attempt, [], Answered res)
  | Refused err => (S attempt, [], Refused err)
  | Failed err =>
      match left with
      | O => (S attempt, [], Failed err)
      | S left' =>
          let '(n, ws, a) := backoffLoop c w rq left' (S attempt) in
          (n,
           jitterBackoff (RetryWaitTime c) (RetryMaxWaitTime c) attempt
             (jitter w attempt) :: ws,
           a)
      end
  end.

Definition Backoff (c : Client) (w : Wire) (rq : Request)
  : nat * list Z * Attempt :=
  backoffLoop c w rq (RetryCount c) 0%nat.

(** One call of [Post]: the request handed to every execution, and what
    [Backoff] did with it. *)
Record Exchange := {
  sent : Request;
  attempts : nat;
  waits : list Z;
  result : Attempt
}.

(** [Post] sets the method and the URL, as text, and executes the request
    under [Backoff]; every execution gets the same request. *)
Definition Post (c : Client) (w : Wire) (url : string) (r : Request) : Exchange :=
  let r' :=
    handleContentType
      {| Method := "POST"; URL := url; Header := Header r; Body := Body r |} in
  let '(n, ws, a) := Backoff c w r' in
  {| sent := r'; attempts := n; waits := ws; result := a |}.

End resty.

(** ** transferRepo *)

(** The request [transferRepo] builds before [Post]. *)
Definition transferRequest (client : resty.Client)
    (newUser repoName githubToken : string) : resty.Request :=
  resty.SetHeader "X-GitHub-Api-Version" "2022-11-28"
    (resty.SetHeader "Authorization" ("Bearer " +:+ githubToken)
       (resty.SetHeader "Accept" "application/vnd.github+json"
          (resty.SetBody
             (<["new_owner" := newUser]> (<["new_name" := repoName]> ∅))
             (resty.R client)))).

(** [transferRepo]: the exchange it causes and the error it returns
    ([None] is Go's nil). *)
Definition transferRepo (client : resty.Client) (wire : resty.Wire)
    (transferURL newUser repoName githubToken : string)
  : resty.Exchange * option string :=
  let ex :=
    resty.Post client wire transferURL
      (transferRequest client newUser repoName githubToken) in
  (ex,
   match resty.result ex with
   | resty.Refused err | resty.Failed err =>
       Some ("client request for repo " +:+ repoName +:+ " failed: " +:+ err)
   | resty.Answered res =>
       let code := resty.StatusCode res in
       if code =? 202 then None
       else if code =? 401 then
         Some ("repo " +:+ repoName +:+ ": Unauthorized (HTTP " +:+ fmt.d code
               +:+ "). Check GitHub token and permissions. Response: "
               +:+ resty.String_ res)
       else if code =? 403 then
         Some ("repo " +:+ repoName +:+ ": Forbidden (HTTP " +:+ fmt.d code
               +:+ "). API rate limits or insufficient permissions. Response: "
               +:+ resty.String_ res)
       else if code =? 404 then
         Some ("repo " +:+ repoName +:+ ": Repository or user not found (HTTP "
               +:+ fmt.d code +:+ "). Response: " +:+ resty.String_ res)
       else if code =? 422 then
         Some ("repo " +:+ repoName +:+ ": Unprocessable Entity (HTTP "
               +:+ fmt.d code +:+ "). Semantic errors. Response: "
               +:+ resty.String_ res)
       else
         Some ("repo " +:+ repoName +:+ ": Unexpected status code (HTTP "
               +:+ fmt.d code +:+ "). Response: " +:+ resty.String_ res)
   end).

(** ** main: what it reads, and the run it sets up *)

(** The world [main] runs in: whether [godotenv.Load] fails (with which
    error), the value of GITHUB_TOKEN_CLASSIC afterwards, the file system,
    and the network: [network n repoName] is what the wire does during the
    [n]-th call of [transferRepo] of the run, made for [repoName]. *)
Record Environment := {
  dotenv : option string;
  GITHUB_TOKEN_CLASSIC : string;
  files : FileSystem;
  network : nat -> string -> resty.Wire
}.

(** The values [main] holds once its checks have passed. *)
Record Run := {
  githubToken : string;
  originalUser : string;
  newUser : string;
  allRepos : list string;
  client : resty.Client;
  numWorkers : Z;
  remote : nat -> string -> resty.Wire
}.

Inductive Prelude :=
| Fatal (msg : string)        (* log.Fatal / log.Fatalf: the process exits *)
| NoRepos                     (* the early return of main *)
| Ready (r : Run).

Definition mainClient : resty.Client :=
  resty.SetCloseConnection true
    (resty.SetRetryMaxWaitTime (10 * resty.Second)
       (resty.SetRetryWaitTime (2 * resty.Second)
          (resty.SetRetryCount 3 resty.New))).

(** [main] up to the creation of the channels. *)
Definition prelude (env : Environment) : Prelude :=
  match dotenv env with
  | Some err => Fatal ("Fatal error: Failed to load .env file: " +:+ err)
  | None =>
      let githubToken := GITHUB_TOKEN_CLASSIC env in
      if bool_decide (githubToken = "") then
        Fatal "Fatal error: GITHUB_TOKEN_CLASSIC environment variable is not set."
      else
        match loadConfig (files env) "config.json" with
        | inl err =>
            Fatal ("Fatal error: Failed to load configuration from config.json: "
                   +:+ err)
        | inr appConfig =>
            if (length (Repositories appConfig) =? 0)%nat then NoRepos
            else
              Ready {| githubToken := githubToken;
                       originalUser := OriginalUser appConfig;
                       newUser := NewUser appConfig;
                       allRepos := Repositories appConfig;
                       client := mainClient;
                       numWorkers := 5;
                       remote := network env |}
        end
  end.

(** ** main: channels, WaitGroup, goroutines *)

(** A buffered channel of strings.  A send on a channel whose buffer is full
    waits; the hand-over of an unbuffered channel is not modelled (the
    program sends only on channels of capacity [len(allRepos)] > 0). *)
Record Chan := {
  buf : list string;
  cap : nat;
  closed : bool
}.

Definition make (size : nat) : Chan := {| buf := []; cap := size; closed := false |}.

Inductive Recv :=
| Got (v : string) (c' : Chan)
| Ended                       (* closed and drained: a range loop ends *)
| RecvWaits.

Definition recv (c : Chan) : Recv :=
  match buf c with
  | v :: rest => Got v {| buf := rest; cap := cap c; closed := closed c |}
  | [] => if closed c then Ended else RecvWaits
  end.

Inductive Send :=
| Sent (c' : Chan)
| SendWaits
| SendPanics.                 (* send on closed channel *)

Definition send (v : string) (c : Chan) : Send :=
  if closed c then SendPanics
  else if (length (buf c) <? cap c)%nat then
    Sent {| buf := buf c ++ [v]; cap := cap c; closed := false |}
  else SendWaits.

(** [close]: [None] is the panic of closing a closed channel. *)
Definition close (c : Chan) : option Chan :=
  if closed c then None else Some {| buf := buf c; cap := cap c; closed := true |}.

(** Where a worker goroutine stands. *)
Inductive WorkerPC :=
| WRange                           (* at [for repoName := range jobs] *)
| WTransfer (repoName : string)    (* holds a job, before [transferRepo] *)
| WPublish (msg : string)          (* before [results <- msg] *)
| WFinished.                       (* loop over, [wg.Done()] has run *)

Record Worker := {
  workerID : Z;
  wpc : WorkerPC
}.

(** Where the main goroutine stands. *)
Inductive MainPC :=
| MSpawn (w : Z)                   (* the loop that starts the workers *)
| MDistribute (rest : list string) (* [for _, repo := range allRepos] *)
| MCloseJobs
| MWait
| MCloseResults
| MSummary                         (* [for resMsg := range results] *)
| MExit.

(** One call of [transferRepo], as a worker made it. *)
Record Call := {
  c_worker : Z;
  c_repo : string;
  c_exchange : resty.Exchange;
  c_err : option string
}.

Record State := {
  pc : MainPC;
  jobs : Chan;
  results : Chan;
  wg : nat;
  pool : list Worker;
  successCount : nat;
  failureCount : nat;
  seen : list string;              (* the messages the summary loop has read *)
  calls : list Call;               (* the calls of transferRepo so far *)
  crashed : bool                   (* a goroutine has panicked *)
}.

Definition set_pc (x : MainPC) (s : State) : State :=
  {| pc := x; jobs := jobs s; results := results s; wg := wg s; pool := pool s;
     successCount := successCount s; failureCount := failureCount s;
     seen := seen s; calls := calls s; crashed := crashed s |}.

Definition set_jobs (x : Chan) (s : State) : State :=
  {| pc := pc s; jobs := x; results := results s; wg := wg s; pool := pool s;
     successCount := successCount s; failureCount := failureCount s;
     seen := seen s; calls := calls s; crashed := crashed s |}.

Definition set_results (x : Chan) (s : State) : State :=
  {| pc := pc s; jobs := jobs s; results := x; wg := wg s; pool := pool s;
     successCount := successCount s; failureCount := failureCount s;
     seen := seen s; calls := calls s; crashed := crashed s |}.

Definition set_wg (x : nat) (s : State) : State :=
  {| pc := pc s; jobs := jobs s; results := results s; wg := x; pool := pool s;
     successCount := successCount s; failureCount := failureCount s;
     seen := seen s; calls := calls s; crashed := crashed s |}.

Definition set_pool (x : list Worker) (s : State) : State :=
  {| pc := pc s; jobs := jobs s; results := results s; wg := wg s; pool := x;
     successCount := successCount s; failureCount := failureCount s;
     seen := seen s; calls := calls s; crashed := crashed s |}.

Definition set_calls (x : list Call) (s : State) : State :=
  {| pc := pc s; jobs := jobs s; results := results s; wg := wg s; pool := pool s;
     successCount := successCount s; failureCount := failureCount s;
     seen := seen s; calls := x; crashed := crashed s |}.

Definition panic (s : State) : State :=
  {| pc := pc s; jobs := jobs s; results := results s; wg := wg s; pool := pool s;
     successCount := successCount s; failureCount := failureCount s;
     seen := seen s; calls := calls s; crashed := true |}.

(** The body of the summary loop for one message. *)
Definition parsesAsSuccess (resMsg : string) : bool :=
  match fmt.Sscanf_lit_s "[SUCCESS]" resMsg with
  | inr _ => true
  | inl _ => false
  end.

Definition tally (resMsg : string) (s : State) : State :=
  {| pc := pc s; jobs := jobs s; results := results s; wg := wg s; pool := pool s;
     successCount :=
       if parsesAsSuccess resMsg then S (successCount s) else successCount s;
     failureCount :=
       if parsesAsSuccess resMsg then failureCount s else S (failureCount s);
     seen := seen s ++ [resMsg]; calls := calls s; crashed := crashed s |}.

(** The state when the first worker is about to be started. *)
Definition initial (r : Run) : State :=
  {| pc := MSpawn 1;
     jobs := make (length (allRepos r));
     results := make (length (allRepos r));
     wg := 0; pool := [];
     successCount := 0; failureCount := 0;
     seen := []; calls := []; crashed := false |}.

(** One step of the main goroutine; [None] when it waits or is done. *)
Definition stepMain (r : Run) (s : State) : option State :=
  match pc s with
  | MSpawn w =>
      if w <=? numWorkers r then
        Some (set_pc (MSpawn (w + 1))
                (set_pool (pool s ++ [{| workerID := w; wpc := WRange |}])
                   (set_wg (S (wg s)) s)))
      else Some (set_pc (MDistribute (allRepos r)) s)
  | MDistribute [] => Some (set_pc MCloseJobs s)
  | MDistribute (repo :: rest) =>
      match send repo (jobs s) with
      | Sent c' => Some (set_pc (MDistribute rest) (set_jobs c' s))
      | SendWaits => None
      | SendPanics => Some (panic s)
      end
  | MCloseJobs =>
      match close (jobs s) with
      | Some c' => Some (set_pc MWait (set_jobs c' s))
      | None => Some (panic s)
      end
  | MWait => if (wg s =? 0)%nat then Some (set_pc MCloseResults s) else None
  | MCloseResults =>
      match close (results s) with
      | Some c' => Some (set_pc MSummary (set_results c' s))
      | None => Some (panic s)
      end
  | MSummary =>
      match recv (results s) with
      | Got resMsg c' => Some (tally resMsg (set_results c' s))
      | Ended => Some (set_pc MExit s)
      | RecvWaits => None
      end
  | MExit => None
  end.

(** The message a worker publishes for a job. *)
Definition resultMessage (workerID : Z) (repoName : string) (err : option string)
  : string :=
  match err with
  | Some e =>
      "[FAIL] Worker " +:+ fmt.d workerID +:+ ", Repo " +:+ repoName +:+ ": " +:+ e
  | None =>
      "[SUCCESS] Worker " +:+ fmt.d workerID +:+ ", Repo " +:+ repoName
      +:+ ": Transfer successful"
  end.

Definition transferAPIURL (oUser repoName : string) : string :=
  "https://api.github.com/repos/" +:+ oUser +:+ "/" +:+ repoName +:+ "/transfer".

Definition set_worker (i : nat) (w : Worker) (x : WorkerPC) (s : State) : State :=
  set_pool (<[i := {| workerID := workerID w; wpc := x |}]> (pool s)) s.

(** One step of the worker at index [i] of the pool; [None] when it waits,
    is done, or does not exist. *)
Definition stepWorker (r : Run) (i : nat) (s : State) : option State :=
  match pool s !! i with
  | None => None
  | Some w =>
      match wpc w with
      | WRange =>
          match recv (jobs s) with
          | Got repoName c' => Some (set_worker i w (WTransfer repoName) (set_jobs c' s))
          | Ended =>
              match wg s with
              | O => Some (panic s)          (* negative WaitGroup counter *)
              | S n => Some (set_worker i w WFinished (set_wg n s))
              end
          | RecvWaits => None
          end
      | WTransfer repoName =>
          let '(ex, err) :=
            transferRepo (client r) (remote r (length (calls s)) repoName)
              (transferAPIURL (originalUser r) repoName) (newUser r) repoName
              (githubToken r) in
          Some (set_worker i w (WPublish (resultMessage (workerID w) repoName err))
                  (set_calls
                     (calls s ++ [{| c_worker := workerID w; c_repo := repoName;
                                     c_exchange := ex; c_err := err |}]) s))
      | WPublish msg =>
          match send msg (results s) with
          | Sent c' => Some (set_worker i w WRange (set_results c' s))
          | SendWaits => None
          | SendPanics => Some (panic s)
          end
      | WFinished => None
      end
  end.

(** The scheduler picks a goroutine; a panic stops everything. *)
Inductive Tick :=
| RunMain
| RunWorker (i : nat).

Definition tick (r : Run) (t : Tick) (s : State) : option State :=
  if crashed s then None
  else match t with
       | RunMain => stepMain r s
       | RunWorker i => stepWorker r i s
       end.

Definition step (r : Run) (s s' : State) : Prop := ∃ t, tick r t s = Some s'.

(** A schedule run from a state; a goroutine that waits when picked does not
    move. *)
Fixpoint exec (r : Run) (sched : list Tick) (s : State) : State :=
  match sched with
  | [] => s
  | t :: sched' =>
      match tick r t s with
      | Some s' => exec r sched' s'
      | None => exec r sched' s
      end
  end.

(** A scheduler of its own: main when it can move, else the first worker
    that can. *)
Fixpoint firstWorker (r : Run) (s : State) (n i : nat) : option State :=
  match n with
  | O => None
  | S n' =>
      match tick r (RunWorker i) s with
      | Some s' => Some s'
      | None => firstWorker r s n' (S i)
      end
  end.

Definition next (r : Run) (s : State) : option State :=
  match tick r RunMain s with
  | Some s' => Some s'
  | None => firstWorker r s (length (pool s)) 0
  end.

Fixpoint runFor (r : Run) (fuel : nat) (s : State) : State :=
  match fuel with
  | O => s
  | S fuel' =>
      match next r s with
      | Some s' => runFor r fuel' s'
      | None => s
      end
  end.

(** The whole program under a schedule: how it ends. *)
Inductive Ending :=
| EndFatal (msg : string)
| EndNoRepos
| EndPool (s : State).

Definition mainProgram (env : Environment) (sched : list Tick) : Ending :=
  match prelude env with
  | Fatal msg => EndFatal msg
  | NoRepos => EndNoRepos
  | Ready r => EndPool (exec r sched (initial r))
  end.

(** The HTTP calls of a run of the program. *)
Definition httpCalls (e : Ending) : list Call :=
  match e with
  | EndPool s => calls s
  | _ => []
  end.

(** The summary loop as a function of the messages it reads. *)
Definition summarise (msgs : list string) : nat * nat :=
  fold_left
    (fun acc resMsg =>
       if parsesAsSuccess resMsg then (S (fst acc), snd acc)
       else (fst acc, S (snd acc)))
    msgs (0%nat, 0%nat).

(** ** Bookkeeping for the proofs about the pool *)

(** The job a worker holds, the message it is about to publish, whether it
    still counts in the WaitGroup. *)
Definition held (w : Worker) : list string :=
  match wpc w with WTransfer repoName => [repoName] | _ => [] end.

Definition pending (w : Worker) : list string :=
  match wpc w with WPublish msg => [msg] | _ => [] end.

Definition alive (w : Worker) : nat :=
  match wpc w with WFinished => 0%nat | _ => 1%nat end.

(** The repositories main has not sent on [jobs] yet. *)
Definition unfed (r : Run) (s : State) : list string :=
  match pc s with
  | MSpawn _ => allRepos r
  | MDistribute rest => rest
  | _ => []
  end.

(** The message published for a call. *)
Definition message (c : Call) : string :=
  resultMessage (c_worker c) (c_repo c) (c_err c).

(** What the [n]-th call of the run is, given who made it and for which
    repository. *)
Definition callOf (r : Run) (n : nat) (workerID : Z) (repoName : string) : Call :=
  let '(ex, err) :=
    transferRepo (client r) (remote r n repoName)
      (transferAPIURL (originalUser r) repoName) (newUser r) repoName
      (githubToken r) in
  {| c_worker := workerID; c_repo := repoName; c_exchange := ex; c_err := err |}.

(** The number of steps a state is away from the end of the run: every step
    of every goroutine lowers it by one. *)
Definition workerWeight (w : Worker) : nat :=
  match wpc w with
  | WRange => 1
  | WTransfer _ => 4
  | WPublish _ => 3
  | WFinished => 0
  end%nat.

Definition mainWeight (r : Run) (p : MainPC) : nat :=
  match p with
  | MSpawn w => 2 * Z.to_nat (numWorkers r + 1 - w) + 6 + 5 * length (allRepos r)
  | MDistribute rest => 5 + 5 * length rest
  | MCloseJobs => 4
  | MWait => 3
  | MCloseResults => 2
  | MSummary => 1
  | MExit => 0
  end%nat.

Definition measure (r : Run) (s : State) : nat :=
  (mainWeight r (pc s) + sum_list_with workerWeight (pool s)
   + 4 * length (buf (jobs s)) + length (buf (results s)))%nat.

(** What holds of the channels and of the WaitGroup at each place of main. *)
Definition phase (r : Run) (s : State) : Prop :=
  match pc s with
  | MSpawn w =>
      1 ≤ w ≤ numWorkers r + 1 ∧ Z.of_nat (length (pool s)) = w - 1
      ∧ closed (jobs s) = false ∧ closed (results s) = false
  | MDistribute _ | MCloseJobs =>
      Z.of_nat (length (pool s)) = numWorkers r
      ∧ closed (jobs s) = false ∧ closed (results s) = false
  | MWait =>
      Z.of_nat (length (pool s)) = numWorkers r
      ∧ closed (jobs s) = true ∧ closed (results s) = false
  | MCloseResults =>
      Z.of_nat (length (pool s)) = numWorkers r
      ∧ closed (jobs s) = true ∧ closed (results s) = false ∧ wg s = 0%nat
  | MSummary =>
      Z.of_nat (length (pool s)) = numWorkers r
      ∧ closed (jobs s) = true ∧ closed (results s) = true ∧ wg s = 0%nat
  | MExit =>
      Z.of_nat (length (pool s)) = numWorkers r
      ∧ closed (jobs s) = true ∧ closed (results s) = true ∧ wg s = 0%nat
      ∧ buf (results s) = []
  end.

(** The invariant of the pool: nothing has panicked; both channels have room
    for every repository; every repository is in exactly one place (called,
    held by a worker, in [jobs], or not sent yet); every call's message is
    in exactly one place (read by the summary, in [results], or about to be
    published); the counters are the summary of the messages read; the
    WaitGroup counts the workers still running; a worker has left its loop
    only after [jobs] was closed and drained. *)
Record Inv (r : Run) (s : State) : Prop := {
  inv_crashed : crashed s = false;
  inv_cap_jobs : cap (jobs s) = length (allRepos r);
  inv_cap_results : cap (results s) = length (allRepos r);
  inv_jobs :
    (c_repo <$> calls s) ++ flat_map held (pool s) ++ buf (jobs s) ++ unfed r s
    ≡ₚ allRepos r;
  inv_results :
    seen s ++ buf (results s) ++ flat_map pending (pool s)
    ≡ₚ message <$> calls s;
  inv_calls :
    ∀ n c, calls s !! n = Some c → c = callOf r n (c_worker c) (c_repo c);
  inv_tally : (successCount s, failureCount s) = summarise (seen s);
  inv_wg : wg s = sum_list_with alive (pool s);
  inv_finished :
    (wg s < length (pool s))%nat → closed (jobs s) = true ∧ buf (jobs s) = [];
  inv_phase : phase r s
}.

(** The same run with another number of workers. *)
Definition withWorkers (n : Z) (r : Run) : Run :=
  {| githubToken := githubToken r; originalUser := originalUser r;
     newUser := newUser r; allRepos := allRepos r; client := client r;
     numWorkers := n; remote := remote r |}.

(** ** Sample worlds, for the examples *)

Definition answering (code : Z) (body : string) : resty.Wire :=
  {| resty.execute :=
       fun _ _ => resty.Answered {| resty.StatusCode := code; resty.String_ := body |};
     resty.jitter := fun _ => 0 |}.

Definition unreachableHost : resty.Wire :=
  {| resty.execute := fun _ _ => resty.Failed "dial tcp: lookup failed";
     resty.jitter := fun n => 123456789 * Z.of_nat n |}.

(** Two transport errors, then a 404. *)
Definition flaky : resty.Wire :=
  {| resty.execute :=
       fun _ n =>
         if (n <? 2)%nat then resty.Failed "connection reset"
         else resty.Answered {| resty.StatusCode := 404; resty.String_ := "gone" |};
     resty.jitter := fun _ => 7777777777 |}.

Definition sampleNetwork (n : nat) (repoName : string) : resty.Wire :=
  if String.eqb repoName "a" then answering 202 "{}"
  else if String.eqb repoName "b" then unreachableHost
  else flaky.

Definition sampleConfig : Config :=
  {| OriginalUser := "old"; NewUser := "new"; Repositories := ["a"; "b"; "c"; "a"] |}.

Definition sampleFiles (c : Config) : FileSystem :=
  {| ReadFile := fun _ => inr "{...}"; Unmarshal := fun _ => inr c |}.

Definition sampleEnv : Environment :=
  {| dotenv := None; GITHUB_TOKEN_CLASSIC := "tok";
     files := sampleFiles sampleConfig; network := sampleNetwork |}.

Definition sampleRun : Run :=
  {| githubToken := "tok"; originalUser := "old"; newUser := "new";
     allRepos := ["a"; "b"; "c"; "a"]; client := mainClient;
     numWorkers := 5; remote := sampleNetwork |}.

(** A string of [n] letters. *)
Fixpoint letters (n : nat) : string :=
  match n with
  | O => EmptyString
  | S n' => String "x" (letters n')
  end.

(** What [transferRepo] returns for a repository when the network does not
    depend on the number of the call. *)
Definition errOf (r : Run) (repoName : string) : option string :=
  snd (transferRepo (client r) (remote r 0%nat repoName)
         (transferAPIURL (originalUser r) repoName) (newUser r) repoName
         (githubToken r)).

(** A blank the scanner skips: a space rune other than the newline. *)
Definition blank (b : fmt.rune) : Prop := fmt.isSpace b = true ∧ b ≠ 10.

(** The request of a call is the POST of its repository: the URL is the
    text [main] builds with [Sprintf], the names put in as they are. *)
Definition isTransferPost (r : Run) (c : Call) : Prop :=
  let rq := resty.sent (c_exchange c) in
  resty.Method rq = "POST"
  ∧ resty.URL rq
    = "https://api.github.com/repos/" +:+ originalUser r +:+ "/" +:+ c_repo c
      +:+ "/transfer"
  ∧ resty.Body rq
    = Some (<["new_owner" := newUser r]> (<["new_name" := c_repo c]> ∅))
  ∧ resty.Header rq !! "Accept" = Some "application/vnd.github+json"
  ∧ resty.Header rq !! "Authorization" = Some ("Bearer " +:+ githubToken r)
  ∧ resty.Header rq !! "X-GitHub-Api-Version" = Some "2022-11-28"
  ∧ resty.Header rq !! "Content-Type" = Some "application/json".

(** The request of a call left the client: no execution of it was refused
    before sending. *)
Definition posted (c : Call) : Prop :=
  ∀ err, resty.result (c_exchange c) ≠ resty.Refused err.

(** ** More bookkeeping: the order of the jobs, the identity of the workers *)

(** The repositories not yet taken by a worker are the end of the list, in
    its order; the worker at index [i] of the pool got the number [i + 1];
    every call was made by a worker of the pool; the summary loop has read
    nothing before main reaches it. *)
Record Order (r : Run) (s : State) : Prop := {
  ord_jobs : ∃ started, allRepos r = started ++ buf (jobs s) ++ unfed r s;
  ord_ids : ∀ i w, pool s !! i = Some w → workerID w = Z.of_nat i + 1;
  ord_calls :
    Forall (λ c, 1 ≤ c_worker c ≤ Z.of_nat (length (pool s))) (calls s);
  ord_seen :
    match pc s with
    | MSummary | MExit => True
    | _ => seen s = []
    end
}.

(** ** main_test.go *)

(** [strings.HasPrefix] and [strings.Contains]. *)
Fixpoint HasPrefix (s prefix : string) : bool :=
  match prefix with
  | EmptyString => true
  | String p prefix' =>
      match s with
      | EmptyString => false
      | String c s' => Ascii.eqb c p && HasPrefix s' prefix'
      end
  end.

Fixpoint Contains (s substr : string) : bool :=
  HasPrefix s substr
  || match s with
     | EmptyString => false
     | String _ s' => Contains s' substr
     end.

(** A string without its first [n] bytes. *)
Fixpoint dropBytes (n : nat) (s : string) : string :=
  match n, s with
  | O, _ => s
  | S n', String _ s' => dropBytes n' s'
  | S _, EmptyString => EmptyString
  end.

Module main_test.

(** The double quote, for the JSON texts of the handlers. *)
Definition q : string := String "034" EmptyString.

(** A server handler of the table: what it reports with [t.Errorf] about the
    request it gets (given the URL of the test server), and the response
    [transferRepo] sees: the status written, and the text written as
    [res.String()] returns it (the newline of [Fprintln] trimmed).  No
    handler of the table lets its response depend on the request. *)
Record Handler := {
  complaints : string -> resty.Request -> list string;
  response : resty.Response
}.

Record testCase := {
  name : string;
  serverHandler : option Handler;
  newUser : string;
  repoName : string;
  githubToken : string;
  expectError : bool;
  expectedErrorMsgSubstring : string;
  urlOriginalUser : string;
  urlRepo : string
}.

Definition jsonMessage (text : string) : string :=
  "{" +:+ q +:+ "message" +:+ q +:+ ": " +:+ q +:+ text +:+ q +:+ "}".

Definition replies (status : Z) (text : string) : Handler :=
  {| complaints := fun _ _ => [];
     response := {| resty.StatusCode := status; resty.String_ := jsonMessage text |} |}.

(** The handler of the first case: it checks the method, the Authorization
    header and the path of the URL (what follows the URL of the server). *)
Definition successfulTransfer : Handler :=
  {| complaints :=
       fun serverURL r =>
         (if String.eqb (resty.Method r) "POST" then []
          else ["Expected POST request, got " +:+ resty.Method r])
         ++ (let auth := default "" (resty.Header r !! "Authorization") in
             if String.eqb auth "Bearer test-token" then []
             else ["Expected Authorization header 'Bearer test-token', got '"
                   +:+ auth +:+ "'"])
         ++ (let path := dropBytes (String.length serverURL) (resty.URL r) in
             if String.eqb path "/repos/test-orig-user/test-repo/transfer" then []
             else ["Expected URL path '/repos/test-orig-user/test-repo/transfer', got '"
                   +:+ path +:+ "'"]);
     response :=
       {| resty.StatusCode := 202;
          resty.String_ := jsonMessage "Repository transfer initiated" |} |}.

Definition tests : list testCase :=
  [ {| name := "Successful transfer";
       serverHandler := Some successfulTransfer;
       newUser := "test-new-user"; repoName := "test-repo";
       githubToken := "test-token"; expectError := false;
       expectedErrorMsgSubstring := "";
       urlOriginalUser := "test-orig-user"; urlRepo := "test-repo" |};
    {| name := "Unauthorized - 401";
       serverHandler := Some (replies 401 "Bad credentials");
       newUser := "test-new-user"; repoName := "test-repo-401";
       githubToken := "invalid-token"; expectError := true;
       expectedErrorMsgSubstring := "Unauthorized (HTTP 401)";
       urlOriginalUser := "test-orig-user"; urlRepo := "test-repo-401" |};
    {| name := "Forbidden - 403";
       serverHandler :=
         Some (replies 403 "Rate limit exceeded or insufficient permissions");
       newUser := "test-new-user"; repoName := "test-repo-403";
       githubToken := "test-token"; expectError := true;
       expectedErrorMsgSubstring := "Forbidden (HTTP 403)";
       urlOriginalUser := "test-orig-user"; urlRepo := "test-repo-403" |};
    {| name := "Not Found - 404";
       serverHandler := Some (replies 404 "Repository not found");
       newUser := "test-new-user"; repoName := "non-existent-repo";
       githubToken := "test-token"; expectError := true;
       expectedErrorMsgSubstring := "Repository or user not found (HTTP 404)";
       urlOriginalUser := "test-orig-user"; urlRepo := "non-existent-repo" |};
    {| name := "Unprocessable Entity - 422";
       serverHandler := Some (replies 422 "Validation failed");
       newUser := "test-new-user"; repoName := "test-repo-422";
       githubToken := "test-token"; expectError := true;
       expectedErrorMsgSubstring := "Unprocessable Entity (HTTP 422)";
       urlOriginalUser := "test-orig-user"; urlRepo := "test-repo-422" |};
    {| name := "Unexpected Status Code - 500";
       serverHandler := Some (replies 500 "Server error");
       newUser := "test-new-user"; repoName := "test-repo-500";
       githubToken := "test-token"; expectError := true;
       expectedErrorMsgSubstring := "Unexpected status code (HTTP 500)";
       urlOriginalUser := "test-orig-user"; urlRepo := "test-repo-500" |};
    {| name := "Client request error (e.g. network error)";
       serverHandler := None;
       newUser := "test-new-user"; repoName := "test-repo-network-error";
       githubToken := "test-token"; expectError := true;
       expectedErrorMsgSubstring := "failed to send transfer request";
       urlOriginalUser := "test-orig-user";
       urlRepo := "test-repo-network-error" |} ].

(** The body of [t.Run] for one case: the [t.Errorf] reports it makes.
    [serverURL] is the URL of the test server; [dialError] is the text of
    the error the client gets for the host that does not resolve. *)
Definition run (serverURL dialError : string) (tc : testCase) : list string :=
  let client := resty.New in
  let '(transferURL, wire, check) :=
    match serverHandler tc with
    | Some h =>
        (serverURL +:+ "/repos/" +:+ urlOriginalUser tc +:+ "/" +:+ urlRepo tc
         +:+ "/transfer",
         {| resty.execute := fun _ _ => resty.Answered (response h);
            resty.jitter := fun _ => 0 |},
         complaints h serverURL)
    | None =>
        ("http://.invalidlocaldomain:12345/repos/" +:+ urlOriginalUser tc +:+ "/"
         +:+ urlRepo tc +:+ "/transfer",
         {| resty.execute := fun _ _ => resty.Failed dialError;
            resty.jitter := fun _ => 0 |},
         fun _ => [])
    end in
  let '(ex, err) :=
    transferRepo client wire transferURL (newUser tc) (repoName tc)
      (githubToken tc) in
  check (resty.sent ex)
  ++ (if expectError tc then
        match err with
        | None => ["Expected an error, but got nil"]
        | Some e =>
            if Contains e (expectedErrorMsgSubstring tc) then []
            else ["Expected error message to contain '"
                  +:+ expectedErrorMsgSubstring tc +:+ "', but got '" +:+ e +:+ "'"]
        end
      else
        match err with
        | None => []
        | Some e => ["Expected no error, but got: " +:+ e]
        end).

(** A case passes when nothing was reported. *)
Definition passes (serverURL dialError : string) (tc : testCase) : bool :=
  match run serverURL dialError tc with
  | [] => true
  | _ => false
  end.

End main_test.

(** ** Names as URL text *)

(** The bytes GitHub allows in the name of an account or of a repository:
    letters, digits, '-', '.' and '_'. *)
Definition nameByte (a : ascii) : bool :=
  let n := nat_of_ascii a in
  ((48 <=? n) && (n <=? 57) || (65 <=? n) && (n <=? 90)
   || (97 <=? n) && (n <=? 122) || (n =? 45) || (n =? 46) || (n =? 95))%nat.

Fixpoint plainName (s : string) : bool :=
  match s with
  | EmptyString => true
  | String a s' => nameByte a && plainName s'
  end.

(** URL text made of name bytes, '/' and ':' only: it holds no '#', no '?',
    no '%', no blank and no control byte, so that parsing it leaves the
    path as it is written. *)
Fixpoint plainURL (s : string) : bool :=
  match s with
  | EmptyString => true
  | String a s' =>
      (nameByte a || Ascii.eqb a "/" || Ascii.eqb a ":") && plainURL s'
  end.

(** [ishex] of net/url. *)
Definition ishex (a : ascii) : bool :=
  let n := nat_of_ascii a in
  ((48 <=? n) && (n <=? 57) || (97 <=? n) && (n <=? 102)
   || (65 <=? n) && (n <=? 70))%nat.

(** The check of percent escapes that [unescape] of net/url makes on the
    path of a URL: the first '%' that is not followed by two hexadecimal
    digits, with the (at most two) bytes after it; [None] when there is
    none. *)
Fixpoint invalidEscape (s : string) : option string :=
  match s with
  | EmptyString => None
  | String a rest =>
      if Ascii.eqb a "%" then
        match rest with
        | String h1 (String h2 rest') =>
            if ishex h1 && ishex h2 then invalidEscape rest'
            else Some (String a (String h1 (String h2 EmptyString)))
        | _ => Some (String a rest)
        end
      else invalidEscape rest
  end.

(** A client that checks the percent escapes of the URL before it sends
    anything, in front of a remote that accepts every transfer. *)
Definition parsingClient : resty.Wire :=
  {| resty.execute :=
       fun rq _ =>
         match invalidEscape (resty.URL rq) with
         | Some bad =>
             resty.Refused
               ("parse " +:+ main_test.q +:+ resty.URL rq +:+ main_test.q
                +:+ ": invalid URL escape " +:+ main_test.q +:+ bad
                +:+ main_test.q)
         | None => resty.Answered {| resty.StatusCode := 202; resty.String_ := "{}" |}
         end;
     resty.jitter := fun _ => 0 |}.

(** A run whose one repository has a name that is no URL text. *)
Definition escapeRun : Run :=
  {| githubToken := "tok"; originalUser := "old"; newUser := "new";
     allRepos := ["x%zz"]; client := mainClient; numWorkers := 5;
     remote := fun _ _ => parsingClient |}.

(** * Proofs *)

(** ** Lists updated at one index *)

Section ListUpdates.
Context {A B : Type}.

Lemma sum_list_with_insert (f : A → nat) (l : list A) i x y :
  l !! i = Some x →
  (sum_list_with f (<[i := y]> l) + f x = sum_list_with f l + f y)%nat.
Proof.
  intros Hi. rewrite insert_take_drop by (by eapply lookup_lt_Some).
  rewrite <- (take_drop_middle l i x Hi) at 3.
  rewrite !sum_list_with_app. simpl. lia.
Qed.

Lemma flat_map_insert (f : A → list B) (l : list A) i x y :
  l !! i = Some x →
  f x ++ flat_map f (<[i := y]> l) ≡ₚ f y ++ flat_map f l.
Proof.
  intros Hi. rewrite insert_take_drop by (by eapply lookup_lt_Some).
  rewrite <- (take_drop_middle l i x Hi) at 3.
  rewrite !flat_map_app. simpl. solve_Permutation.
Qed.

Lemma flat_map_lookup_length (f : A → list B) (l : list A) i x :
  l !! i = Some x → (length (f x) ≤ length (flat_map f l))%nat.
Proof.
  intros Hi. rewrite <- (take_drop_middle l i x Hi).
  rewrite flat_map_app. simpl. rewrite !length_app. lia.
Qed.

Lemma sum_list_with_lookup (f : A → nat) (l : list A) i x :
  l !! i = Some x → (f x ≤ sum_list_with f l)%nat.
Proof.
  intros Hi. apply sum_list_with_in. by eapply list_elem_of_lookup_2.
Qed.
End ListUpdates.

(** ** Workers and the WaitGroup *)

Lemma nobody_alive (l : list Worker) :
  sum_list_with alive l = 0%nat →
  Forall (λ w, wpc w = WFinished) l ∧ flat_map held l = [] ∧ flat_map pending l = [].
Proof.
  induction l as [|w l IH]; simpl; [done|].
  unfold alive at 1, held at 1, pending at 1.
  destruct (wpc w) eqn:Hw; try lia. intros H. destruct (IH H) as (?&?&?).
  split_and!; [by constructor | done | done].
Qed.

Lemma somebody_alive (l : list Worker) :
  sum_list_with alive l ≠ 0%nat → ∃ i w, l !! i = Some w ∧ wpc w ≠ WFinished.
Proof.
  induction l as [|w l IH]; simpl; [done|].
  destruct (wpc w) eqn:Hw;
    try (intros _; exists 0%nat, w; split; [done | by rewrite Hw]).
  unfold alive at 1. rewrite Hw. simpl. intros H.
  destruct (IH H) as (i & w' & ? & ?). by exists (S i), w'.
Qed.

(** ** The summary loop *)

Lemma summarise_snoc msgs resMsg :
  summarise (msgs ++ [resMsg])
  = (if parsesAsSuccess resMsg then (S (fst (summarise msgs)), snd (summarise msgs))
     else (fst (summarise msgs), S (snd (summarise msgs)))).
Proof. unfold summarise. by rewrite fold_left_app. Qed.

Lemma summarise_total msgs :
  (fst (summarise msgs) + snd (summarise msgs))%nat = length msgs.
Proof.
  induction msgs as [|m msgs IH] using rev_ind; [done|].
  rewrite summarise_snoc, length_app. simpl.
  destruct (parsesAsSuccess m); simpl; lia.
Qed.

Lemma summarise_counts msgs :
  summarise msgs
  = (sum_list_with (λ m, if parsesAsSuccess m then 1 else 0)%nat msgs,
     sum_list_with (λ m, if parsesAsSuccess m then 0 else 1)%nat msgs).
Proof.
  induction msgs as [|m msgs IH] using rev_ind; [done|].
  rewrite summarise_snoc, !sum_list_with_app, IH. simpl.
  destruct (parsesAsSuccess m); simpl; f_equal; lia.
Qed.

Lemma sum_list_with_ext {A} (f g : A → nat) l :
  (∀ x, f x = g x) → sum_list_with f l = sum_list_with g l.
Proof.
  intros Hfg. induction l as [|x l IH]; [done|]. simpl. by rewrite Hfg, IH.
Qed.

Lemma sum_list_with_fmap_ext {A B} (f : B → nat) (g : A → nat) (h : A → B) l :
  (∀ x, f (h x) = g x) → sum_list_with f (h <$> l) = sum_list_with g l.
Proof.
  intros Hfg. induction l as [|x l IH]; [done|].
  rewrite fmap_cons. simpl. by rewrite Hfg, IH.
Qed.

Lemma length_filter_sum {A} (P : A → Prop) `{!∀ x, Decision (P x)} (l : list A) :
  length (filter P l) = sum_list_with (λ x, if decide (P x) then 1 else 0)%nat l.
Proof.
  induction l as [|x l IH]; [done|].
  rewrite filter_cons. simpl. destruct (decide (P x)); simpl; lia.
Qed.


(** ** The scanner *)

Lemma runes_ascii a s : fmt.byte a < 128 → fmt.runes (String a s) = fmt.byte a :: fmt.runes s.
Proof.
  intros Ha. cbn [fmt.runes fmt.DecodeRune].
  destruct (Z.ltb_spec (fmt.byte a) 128); [done|lia].
Qed.

Lemma advance_inr format input rest :
  fmt.advance format input = inr rest ↔ input = format ++ rest.
Proof.
  revert input. induction format as [|c format IH]; intros input; simpl.
  - split; [by intros [= ->] | by intros ->].
  - destruct input as [|c' input]; [done|].
    destruct (Z.eqb_spec c c') as [->|Hne].
    + rewrite IH. split; [by intros -> | by intros [= ->]].
    + split; [done | intros [= ? ?]; congruence].
Qed.

Lemma SkipSpace_inr input out :
  fmt.SkipSpace input = inr out ↔
  ∃ blanks, input = blanks ++ out ∧ Forall blank blanks
            ∧ match out with [] => True | c :: _ => fmt.isSpace c = false end.
Proof.
  revert out. induction input as [|c input IH]; intros out; simpl.
  - split.
    + intros [= <-]. by exists [].
    + intros (blanks & Heq & _ & _). symmetry in Heq.
      apply app_eq_nil in Heq as [_ ->]. done.
  - destruct (Z.eqb_spec c 10) as [->|Hnl].
    + split; [done|]. intros ([|b blanks] & Heq & Hbl & Hout); simpl in Heq.
      * subst out. done.
      * injection Heq as <- _. apply Forall_cons in Hbl as [[_ ?] _]. done.
    + destruct (fmt.isSpace c) eqn:Hc.
      * rewrite IH. split.
        -- intros (blanks & -> & Hbl & Hout). exists (c :: blanks).
           split_and!; [done | by constructor | done].
        -- intros ([|b blanks] & Heq & Hbl & Hout); simpl in Heq.
           ++ subst out. congruence.
           ++ injection Heq as <- ->. apply Forall_cons in Hbl as [_ Hbl].
              by exists blanks.
      * split.
        -- intros [= <-]. exists []. by rewrite Hc.
        -- intros ([|b blanks] & Heq & Hbl & Hout); simpl in Heq.
           ++ by subst out.
           ++ injection Heq as <- _. apply Forall_cons in Hbl as [[? _] _].
              congruence.
Qed.

Lemma parsesAsSuccess_spec resMsg :
  parsesAsSuccess resMsg = true ↔
  ∃ blanks c rest,
    fmt.runes resMsg = fmt.runes "[SUCCESS]" ++ blanks ++ c :: rest
    ∧ Forall blank blanks ∧ fmt.isSpace c = false.
Proof.
  unfold parsesAsSuccess, fmt.Sscanf_lit_s.
  destruct (fmt.advance _ _) as [e|rest] eqn:Hadv.
  - split; [done|]. intros (blanks & c & rest & Heq & _ & _).
    apply advance_inr in Heq. congruence.
  - apply advance_inr in Hadv.
    destruct (fmt.SkipSpace rest) as [e|out] eqn:Hskip.
    + split; [done|]. intros (blanks & c & rest' & Heq & Hbl & Hc).
      rewrite Hadv in Heq. apply app_inv_head in Heq.
      assert (fmt.SkipSpace rest = inr (c :: rest')) as Hs.
      { apply SkipSpace_inr. by exists blanks. }
      congruence.
    + apply SkipSpace_inr in Hskip as (blanks & -> & Hbl & Hout).
      destruct out as [|c out].
      * split; [done|]. intros (blanks' & c & rest' & Heq & Hbl' & Hc).
        rewrite Hadv in Heq. apply app_inv_head in Heq.
        assert (fmt.SkipSpace (blanks ++ []) = inr (c :: rest')) as Hs.
        { apply SkipSpace_inr. by exists blanks'. }
        assert (fmt.SkipSpace (blanks ++ []) = inr []) as Hs'.
        { apply SkipSpace_inr. by exists blanks. }
        congruence.
      * split; [|done]. intros _. by exists blanks, c, out.
Qed.

Lemma append_String a s t : String a s +:+ t = String a (s +:+ t).
Proof. reflexivity. Qed.

Lemma parsesAsSuccess_resultMessage workerID repoName err :
  parsesAsSuccess (resultMessage workerID repoName err) = bool_decide (err = None).
Proof.
  destruct err as [e|]; unfold resultMessage.
  - unfold parsesAsSuccess, fmt.Sscanf_lit_s. rewrite !append_String.
    rewrite !runes_ascii by done. done.
  - apply parsesAsSuccess_spec. rewrite !append_String.
    exists [32], 87. eexists. split_and!.
    + do 11 (rewrite runes_ascii by done). reflexivity.
    + by repeat constructor.
    + done.
Qed.

(** ** The pool: invariant, progress, termination *)

Ltac tidy :=
  unfold phase, unfed; simpl;
  try rewrite !flat_map_app; try rewrite !sum_list_with_app;
  try rewrite !length_app; try rewrite !fmap_app; simpl;
  try rewrite !app_nil_r.

Section Pool.
Variable r : Run.

Lemma inv_initial : 1 ≤ numWorkers r → Inv r (initial r).
Proof.
  intros workers. split; simpl; try done.
  all: try lia.
  all: unfold phase; simpl; split_and!; try done; lia.
Qed.


Lemma inv_step_main s s' : Inv r s → stepMain r s = Some s' → Inv r s'.
Proof.
  intros [Hcr Hcj Hcr' Hj Hres Hcalls Htal Hwg Hfin Hph] Ht.
  destruct s as [p jb rs g pl sc fc sn cl cr]; simpl in *.
  unfold stepMain, phase, unfed in *; simpl in *.
  destruct p as [w|rest| | | | |]; simpl in *; rewrite ?app_nil_r in *.
  - (* MSpawn *)
    destruct (Z.leb_spec w (numWorkers r)); simplify_eq; split; tidy;
      try done; try lia.
    + intros ?. apply Hfin. lia.
    + split_and!; try tauto; lia.
    + split_and!; try tauto; lia.
  - (* MDistribute *)
    destruct Hph as (Hl & Hcj' & Hcr'').
    destruct rest as [|repo rest].
    + simplify_eq. rewrite app_nil_r in Hj. split; tidy; done.
    + unfold send in Ht. rewrite Hcj' in Ht.
      destruct (length (buf jb) <? cap jb)%nat eqn:Hlt; simplify_eq.
      split; tidy; try done.
      * rewrite <- Hj. solve_Permutation.
      * intros Hlt'. destruct (Hfin Hlt'); congruence.
  - (* MCloseJobs *)
    unfold close in Ht. destruct Hph as (Hl & Hcj' & Hcr'').
    rewrite Hcj' in Ht. simplify_eq. split; tidy; try done.
    intros Hlt'. destruct (Hfin Hlt'); congruence.
  - (* MWait *)
    destruct g as [|g]; simpl in Ht; simplify_eq.
    split; tidy; try done. tauto.
  - (* MCloseResults *)
    unfold close in Ht. destruct Hph as (Hl & Hcj' & Hcr'' & Hg).
    rewrite Hcr'' in Ht. simplify_eq. split; tidy; done.
  - (* MSummary *)
    destruct Hph as (Hl & Hcj' & Hcr'' & Hg).
    unfold recv in Ht. destruct (buf rs) as [|resMsg rest] eqn:Hbuf.
    + rewrite Hcr'' in Ht. simplify_eq. split; tidy; try done.
      by rewrite Hbuf.
    + simplify_eq. split; tidy; try done.
      * rewrite <- Hres. solve_Permutation.
      * rewrite summarise_snoc, <- Htal. simpl. by destruct (parsesAsSuccess resMsg).
  - (* MExit *) done.
Qed.

Opaque transferRepo resultMessage transferAPIURL.

Lemma inv_step_worker i s s' : Inv r s → stepWorker r i s = Some s' → Inv r s'.
Proof.
  intros [Hcr Hcj Hcr' Hj Hres Hcalls Htal Hwg Hfin Hph] Ht.
  destruct s as [p jb rs g pl sc fc sn cl cr]; simpl in *.
  unfold stepWorker, set_worker in Ht; simpl in Ht.
  destruct (pl !! i) as [w|] eqn:Hi; [|done].
  pose proof (sum_list_with_lookup alive pl i w Hi) as Halive.
  assert (∀ x, let w' := {| workerID := workerID w; wpc := x |} in
            held w ++ flat_map held (<[i := w']> pl) ≡ₚ held w' ++ flat_map held pl
            ∧ pending w ++ flat_map pending (<[i := w']> pl)
              ≡ₚ pending w' ++ flat_map pending pl
            ∧ (sum_list_with alive (<[i := w']> pl) + alive w
               = sum_list_with alive pl + alive w')%nat) as Hupd.
  { intros x w'. split_and!;
      [by apply flat_map_insert | by apply flat_map_insert
      | by apply sum_list_with_insert]. }
  unfold held at 1 3, pending at 1 3, alive at 2 4 in Hupd.
  unfold alive at 1 in Halive. unfold phase, unfed in *. simpl in *.
  destruct (wpc w) as [|repoName|msg|] eqn:Hw; simpl in *.
  - (* WRange *)
    unfold recv in Ht. destruct (buf jb) as [|repoName rest] eqn:Hbuf.
    + destruct (closed jb) eqn:Hcl; [|done].
      destruct g as [|g]; [lia|]. simplify_eq.
      destruct (Hupd WFinished) as (Hh & Hp & Ha). simpl in *.
      split; tidy; rewrite ?length_insert, ?Hbuf, ?Hh, ?Hp; try done; try lia.
      destruct p; simpl in *; try done; try lia; tauto.
    + simplify_eq.
      destruct (Hupd (WTransfer repoName)) as (Hh & Hp & Ha). simpl in *.
      split; tidy; rewrite ?length_insert, ?Hh, ?Hp; try done; try lia.
      * rewrite <- Hj. solve_Permutation.
      * intros Hlt. by destruct (Hfin Hlt).
  - (* WTransfer *)
    destruct (transferRepo _ _ _ _ _ _) as [ex err] eqn:Hcall. simplify_eq.
    destruct (Hupd (WPublish (resultMessage (workerID w) repoName err)))
      as (Hh & Hp & Ha). simpl in *.
    split; tidy; rewrite ?length_insert, ?Hp; try done; try lia.
    + rewrite <- Hj, <- Hh. solve_Permutation.
    + rewrite <- Hres. unfold message at 1. simpl. solve_Permutation.
    + intros n c [[_ Hn]|[-> <-]]%lookup_snoc_Some; [by apply Hcalls|].
      unfold callOf. simpl. by rewrite Hcall.
  - (* WPublish *)
    unfold send in Ht.
    destruct (closed rs) eqn:Hcl.
    { destruct p; simpl in *; try lia; destruct Hph as (?&?&?&?); try lia; congruence. }
    destruct (length (buf rs) <? cap rs)%nat eqn:Hlt; simplify_eq.
    destruct (Hupd WRange) as (Hh & Hp & Ha). simpl in *.
    split; tidy; rewrite ?length_insert, ?Hh; try done; try lia.
    + rewrite <- Hres, <- Hp. solve_Permutation.
    + destruct p; simpl in *; try done; destruct Hph as (?&?&?&?); lia.
  - done.
Qed.

Lemma inv_step s s' : Inv r s → step r s s' → Inv r s'.
Proof.
  intros HI [t Ht]. unfold tick in Ht. rewrite (inv_crashed _ _ HI) in Ht.
  destruct t; [by eapply inv_step_main | by eapply inv_step_worker].
Qed.

Lemma inv_reachable s :
  1 ≤ numWorkers r → rtc (step r) (initial r) s → Inv r s.
Proof.
  intros workers. revert s. apply rtc_ind_r; [by apply inv_initial|].
  intros y z _ Hyz IH. by eapply inv_step.
Qed.

Lemma measure_step t s s' :
  tick r t s = Some s' → crashed s' = false → measure r s = S (measure r s').
Proof.
  unfold tick. destruct (crashed s) eqn:Hcr; [done|].
  destruct s as [p jb rs g pl sc fc sn cl cr]; simpl in *.
  destruct t as [|i]; unfold measure; simpl.
  - unfold stepMain; simpl. destruct p as [w|rest| | | | |]; simpl.
    + destruct (Z.leb_spec w (numWorkers r)); intros; simplify_eq; simpl in *.
      * rewrite sum_list_with_app. simpl. lia.
      * lia.
    + destruct rest as [|repo rest]; [intros; simplify_eq; simpl; lia|].
      unfold send. destruct (closed jb); [by intros; simplify_eq|].
      destruct (length (buf jb) <? cap jb)%nat; intros; simplify_eq; simpl in *.
      rewrite length_app. simpl. lia.
    + unfold close. destruct (closed jb); intros; simplify_eq; simpl in *;
        try done; lia.
    + destruct g; simpl; intros; simplify_eq; simpl in *. lia.
    + unfold close. destruct (closed rs); intros; simplify_eq; simpl in *;
        try done; lia.
    + unfold recv. destruct (buf rs) as [|resMsg rest] eqn:Hbuf.
      * destruct (closed rs); intros; simplify_eq; simpl in *.
        rewrite Hbuf. simpl. lia.
      * intros; simplify_eq; simpl in *. lia.
    + done.
  - unfold stepWorker, set_worker; simpl.
    destruct (pl !! i) as [w|] eqn:Hi; [|done].
    assert (∀ x, (sum_list_with workerWeight
                    (<[i := {| workerID := workerID w; wpc := x |}]> pl)
                  + workerWeight w
                  = sum_list_with workerWeight pl
                    + workerWeight {| workerID := workerID w; wpc := x |})%nat)
      as Hupd by (intros; by apply sum_list_with_insert).
    unfold workerWeight at 2 4 in Hupd. simpl in Hupd.
    destruct (wpc w) as [|repoName|msg|] eqn:Hw.
    + unfold recv. destruct (buf jb) as [|repoName rest] eqn:Hbuf.
      * destruct (closed jb); [|done].
        destruct g; intros; simplify_eq; simpl in *; try done.
        specialize (Hupd WFinished). simpl in Hupd. rewrite Hbuf. simpl. lia.
      * intros; simplify_eq; simpl in *. specialize (Hupd (WTransfer repoName)).
        simpl in Hupd. lia.
    + destruct (transferRepo _ _ _ _ _ _) as [ex err].
      intros; simplify_eq; simpl in *.
      specialize (Hupd (WPublish (resultMessage (workerID w) repoName err))).
      simpl in Hupd. lia.
    + unfold send. destruct (closed rs); [by intros; simplify_eq|].
      destruct (length (buf rs) <? cap rs)%nat; intros; simplify_eq; simpl in *.
      specialize (Hupd WRange). simpl in Hupd. rewrite length_app. simpl. lia.
    + done.
Qed.

Lemma calls_bounded s : Inv r s → (length (calls s) ≤ length (allRepos r))%nat.
Proof.
  intros HI. rewrite <- (Permutation_length (inv_jobs _ _ HI)).
  rewrite !length_app, length_fmap. lia.
Qed.

Lemma progress s : Inv r s → pc s ≠ MExit → ∃ s', step r s s'.
Proof.
  intros HI Hpc.
  cut (is_Some (stepMain r s) ∨ ∃ i, is_Some (stepWorker r i s)).
  { intros [[s' H]|[i [s' H]]]; exists s';
      [exists RunMain | exists (RunWorker i)];
      unfold tick; by rewrite (inv_crashed _ _ HI). }
  pose proof (calls_bounded s HI) as Hcalls.
  destruct HI as [Hcr Hcj Hcr' Hj Hres _ Htal Hwg Hfin Hph].
  apply Permutation_length in Hj, Hres.
  rewrite !length_app, !length_fmap in Hj, Hres.
  destruct s as [p jb rs g pl sc fc sn cl cr]; simpl in *.
  unfold phase, unfed in *; simpl in *. subst cr.
  destruct p as [w|rest| | | | |]; simpl in *.
  - left. unfold stepMain. simpl. by destruct (w <=? numWorkers r).
  - left. unfold stepMain. simpl. destruct rest as [|repo rest]; [done|].
    unfold send. destruct Hph as (_ & -> & _).
    rewrite length_app in Hj. simpl in *.
    destruct (Nat.ltb_spec (length (buf jb)) (cap jb)); [done|lia].
  - left. unfold stepMain, close. simpl. by destruct (closed jb).
  - destruct (decide (g = 0%nat)) as [->|Hg]; [by left|].
    destruct (somebody_alive pl) as (i & w & Hi & Hw); [lia|].
    destruct Hph as (Hl & Hcj' & Hcr'').
    right. exists i. unfold stepWorker. simpl. rewrite Hi.
    destruct (wpc w) as [|repoName|msg|] eqn:Hw'; [| | |done].
    + unfold recv. rewrite Hcj'. destruct (buf jb); [|done]. by destruct g.
    + by destruct (transferRepo _ _ _ _ _ _).
    + unfold send. rewrite Hcr''.
      pose proof (flat_map_lookup_length pending pl i w Hi) as Hp.
      unfold pending at 1 in Hp. rewrite Hw' in Hp. simpl in Hp.
      destruct (Nat.ltb_spec (length (buf rs)) (cap rs)); [done|lia].
  - left. unfold stepMain, close. simpl. by destruct (closed rs).
  - left. unfold stepMain, recv. simpl. destruct Hph as (_ & _ & -> & _).
    by destruct (buf rs).
  - done.
Qed.

(** What the invariant says once main has left the summary loop. *)
Lemma inv_exit s :
  1 ≤ numWorkers r → Inv r s → pc s = MExit →
  Forall (λ w, wpc w = WFinished) (pool s)
  ∧ c_repo <$> calls s ≡ₚ allRepos r
  ∧ seen s ≡ₚ message <$> calls s
  ∧ (successCount s, failureCount s) = summarise (seen s).
Proof.
  intros workers [Hcr Hcj Hcr' Hj Hres _ Htal Hwg Hfin Hph] Hpc.
  unfold phase, unfed in *. rewrite Hpc in *.
  destruct Hph as (Hl & Hcj' & Hcr'' & Hg & Hbuf).
  rewrite Hg in Hwg. symmetry in Hwg.
  destruct (nobody_alive _ Hwg) as (Hall & Hheld & Hpend).
  destruct Hfin as [_ Hjobs]; [lia|].
  rewrite Hheld, Hjobs in Hj. rewrite Hbuf, Hpend in Hres.
  simpl in *. rewrite !app_nil_r in *. done.
Qed.

Lemma steps_measure n s s' :
  Inv r s → nsteps (step r) n s s' →
  Inv r s' ∧ measure r s = (n + measure r s')%nat.
Proof.
  intros HI Hn. induction Hn as [|n x y z Hxy Hyz IH]; [done|].
  pose proof (inv_step _ _ HI Hxy) as HI'.
  destruct (IH HI') as [HIz Hm]. split; [done|].
  destruct Hxy as [t Ht].
  rewrite (measure_step _ _ _ Ht (inv_crashed _ _ HI')). lia.
Qed.

Lemma firstWorker_step s n k s' :
  firstWorker r s n k = Some s' → step r s s'.
Proof.
  revert k. induction n as [|n IH]; intros k; simpl; [done|].
  destruct (tick r (RunWorker k) s) as [s''|] eqn:Ht.
  - intros [= <-]. by exists (RunWorker k).
  - apply IH.
Qed.

Lemma firstWorker_None s n k i :
  firstWorker r s n k = None → (k ≤ i < k + n)%nat →
  tick r (RunWorker i) s = None.
Proof.
  revert k. induction n as [|n IH]; intros k; simpl; [lia|].
  destruct (tick r (RunWorker k) s) as [s''|] eqn:Ht; [done|].
  intros Hn Hi. destruct (decide (i = k)) as [->|]; [done|].
  apply (IH (S k)); [done|lia].
Qed.

Lemma next_step s s' : next r s = Some s' → step r s s'.
Proof.
  unfold next. destruct (tick r RunMain s) as [s''|] eqn:Ht.
  - intros [= <-]. by exists RunMain.
  - apply firstWorker_step.
Qed.

Lemma next_None s : Inv r s → next r s = None → pc s = MExit.
Proof.
  intros HI Hnext.
  assert (pc s = MExit ∨ pc s ≠ MExit) as [|Hpc]
    by (destruct (pc s); auto); [done|].
  destruct (progress s HI Hpc) as (s' & t & Ht). unfold next in Hnext.
  destruct t as [|i]; [by rewrite Ht in Hnext|].
  destruct (tick r RunMain s); [done|].
  rewrite (firstWorker_None s (length (pool s)) 0 i Hnext) in Ht; [done|].
  unfold tick, stepWorker in Ht. destruct (crashed s); [done|].
  destruct (pool s !! i) eqn:Hi; [|done].
  apply lookup_lt_Some in Hi. lia.
Qed.

Lemma runFor_rtc fuel s : rtc (step r) s (runFor r fuel s).
Proof.
  revert s. induction fuel as [|fuel IH]; intros s; simpl; [done|].
  destruct (next r s) as [s'|] eqn:Hn; [|done].
  eapply rtc_l; [by apply next_step | apply IH].
Qed.

Lemma measure_zero s : measure r s = 0%nat → pc s = MExit.
Proof. unfold measure, mainWeight. destruct (pc s); try done; lia. Qed.

Lemma runFor_exit fuel s :
  Inv r s → (measure r s ≤ fuel)%nat → pc (runFor r fuel s) = MExit.
Proof.
  revert s. induction fuel as [|fuel IH]; intros s HI Hm; simpl.
  - apply measure_zero. lia.
  - destruct (next r s) as [s'|] eqn:Hn; [|by apply next_None].
    pose proof (next_step _ _ Hn) as Hstep.
    pose proof (inv_step _ _ HI Hstep) as HI'.
    apply IH; [done|]. destruct Hstep as [t Ht].
    rewrite (measure_step _ _ _ Ht (inv_crashed _ _ HI')) in Hm. lia.
Qed.

Lemma exec_rtc sched s : rtc (step r) s (exec r sched s).
Proof.
  revert s. induction sched as [|t sched IH]; intros s; simpl; [done|].
  destruct (tick r t s) as [s'|] eqn:Ht; [|apply IH].
  eapply rtc_l; [by exists t | apply IH].
Qed.

End Pool.

Transparent transferRepo resultMessage transferAPIURL.

(** ** resty and transferRepo *)

Lemma Post_fields c w url rq :
  resty.sent (resty.Post c w url rq)
  = resty.handleContentType
      {| resty.Method := "POST"; resty.URL := url;
         resty.Header := resty.Header rq; resty.Body := resty.Body rq |}
  ∧ resty.attempts (resty.Post c w url rq)
    = fst (fst (resty.Backoff c w (resty.sent (resty.Post c w url rq))))
  ∧ resty.waits (resty.Post c w url rq)
    = snd (fst (resty.Backoff c w (resty.sent (resty.Post c w url rq))))
  ∧ resty.result (resty.Post c w url rq)
    = snd (resty.Backoff c w (resty.sent (resty.Post c w url rq))).
Proof.
  unfold resty.Post. set (rq' := resty.handleContentType _).
  destruct (resty.Backoff c w rq') as [[n ws] a] eqn:E.
  cbn [resty.sent resty.attempts resty.waits resty.result]. by rewrite E.
Qed.

Lemma transferRepo_exchange client wire url nu repo tok :
  fst (transferRepo client wire url nu repo tok)
  = resty.Post client wire url (transferRequest client nu repo tok).
Proof. reflexivity. Qed.

Lemma transferRepo_request client wire url nu repo tok :
  let rq := resty.sent (transferRepo client wire url nu repo tok).1 in
  resty.Method rq = "POST"
  ∧ resty.URL rq = url
  ∧ resty.Body rq = Some (<["new_owner" := nu]> (<["new_name" := repo]> ∅))
  ∧ resty.Header rq !! "Accept" = Some "application/vnd.github+json"
  ∧ resty.Header rq !! "Authorization" = Some ("Bearer " +:+ tok)
  ∧ resty.Header rq !! "X-GitHub-Api-Version" = Some "2022-11-28"
  ∧ resty.Header rq !! "Content-Type" = Some "application/json".
Proof.
  cbn zeta. rewrite transferRepo_exchange.
  destruct (Post_fields client wire url (transferRequest client nu repo tok))
    as (-> & _).
  unfold resty.handleContentType, transferRequest, resty.SetHeader, resty.SetBody.
  cbn [resty.Header resty.Body resty.Method resty.URL resty.R].
  rewrite !lookup_insert_ne by done. rewrite lookup_empty.
  cbn [resty.Header resty.Body resty.Method resty.URL].
  split_and!; done.
Qed.

Lemma jitterBackoff_bounds attempt draw :
  2 * resty.Second
  ≤ resty.jitterBackoff (2 * resty.Second) (10 * resty.Second) attempt draw
  ≤ 10 * resty.Second.
Proof.
  unfold resty.jitterBackoff, resty.Second, resty.Millisecond, resty.MaxInt64.
  assert (1 ≤ 2 ^ Z.of_nat attempt) as Hpow by (apply Z.pow_le_mono_r with (b := 0); lia).
  set (temp := Z.min (10 * (1000 * 1000000)) (2 * (1000 * 1000000) * 2 ^ Z.of_nat attempt)).
  assert (2000000000 ≤ temp ≤ 10000000000) as Htemp by (unfold temp; lia).
  assert (1000000000 ≤ temp / 2 ∧ 2 * (temp / 2) ≤ temp) as [Hri Hri'].
  { pose proof (Z.div_mod temp 2). pose proof (Z.mod_pos_bound temp 2). lia. }
  destruct (Z.leb_spec (temp / 2) 0); [lia|].
  pose proof (Z.mod_pos_bound draw (temp / 2)).
  destruct (Z.ltb_spec (temp / 2 + draw `mod` (temp / 2)) (2 * (1000 * 1000000))); lia.
Qed.

Lemma backoffLoop_stop w rq left a res :
  resty.execute w rq a = res →
  (a < S a ≤ a + left + 1)%nat
  ∧ length (@nil Z) = (S a - a - 1)%nat
  ∧ res = resty.execute w rq (S a - 1)
  ∧ (∀ k, (a ≤ k < S a - 1)%nat → ∃ e, resty.execute w rq k = resty.Failed e).
Proof.
  intros Ha. replace (S a - 1)%nat with a by lia.
  split_and!; [lia | lia | simpl; lia | done | intros; lia].
Qed.

Lemma backoffLoop_spec c w rq left a :
  let '(n, ws, res) := resty.backoffLoop c w rq left a in
  (a < n ≤ a + left + 1)%nat
  ∧ length ws = (n - a - 1)%nat
  ∧ res = resty.execute w rq (n - 1)
  ∧ (∀ k, (a ≤ k < n - 1)%nat → ∃ e, resty.execute w rq k = resty.Failed e)
  ∧ ((∃ e, res = resty.Failed e) → n = (a + left + 1)%nat)
  ∧ Forall (λ d, ∃ k draw,
              d = resty.jitterBackoff (resty.RetryWaitTime c)
                    (resty.RetryMaxWaitTime c) k draw) ws.
Proof.
  revert a. induction left as [|left IH]; intros a; simpl.
  - destruct (resty.execute w rq a) as [e|e|res] eqn:Ha.
    + destruct (backoffLoop_stop w rq 0 a _ Ha) as (?&?&?&?).
      split_and!; try done; try lia; by intros [? ?].
    + destruct (backoffLoop_stop w rq 0 a _ Ha) as (?&?&?&?).
      split_and!; try done; try lia.
    + destruct (backoffLoop_stop w rq 0 a _ Ha) as (?&?&?&?).
      split_and!; try done; try lia; by intros [? ?].
  - destruct (resty.execute w rq a) as [e|e|res] eqn:Ha.
    + destruct (backoffLoop_stop w rq (S left) a _ Ha) as (?&?&?&?).
      split_and!; try done; try lia; by intros [? ?].
    + specialize (IH (S a)).
      destruct (resty.backoffLoop c w rq left (S a)) as [[n ws] res].
      destruct IH as (Hn & Hlen & Hres & Hfail & Hall & Hws).
      split_and!; try done; try lia.
      * simpl. lia.
      * intros k Hk. destruct (decide (k = a)) as [->|]; [by eexists|].
        apply Hfail. lia.
      * intros He. specialize (Hall He). lia.
      * constructor; [by eexists _, _ | done].
    + destruct (backoffLoop_stop w rq (S left) a _ Ha) as (?&?&?&?).
      split_and!; try done; try lia; by intros [? ?].
Qed.

Lemma calls_errOf r s :
  (∀ n repoName, remote r n repoName = remote r 0%nat repoName) →
  Inv r s → c_err <$> calls s = errOf r <$> (c_repo <$> calls s).
Proof.
  intros Hstateless HI. rewrite <- list_fmap_compose.
  apply list_eq. intros n. rewrite !list_lookup_fmap.
  destruct (calls s !! n) as [c|] eqn:Hc; [|done]. simpl. f_equal.
  rewrite (inv_calls _ _ HI n c Hc) at 1.
  unfold callOf, errOf. rewrite Hstateless.
  by destruct (transferRepo _ _ _ _ _ _).
Qed.

Lemma length_append s1 s2 :
  String.length (s1 +:+ s2) = (String.length s1 + String.length s2)%nat.
Proof. induction s1 as [|a s1 IH]; [done|]. simpl. by rewrite IH. Qed.

Lemma length_letters n : String.length (letters n) = n.
Proof. induction n as [|n IH]; [done|]. simpl. by rewrite IH. Qed.

(** ** Names as URL text *)

Lemma plainURL_app s t : plainURL (s +:+ t) = plainURL s && plainURL t.
Proof.
  induction s as [|a s IH]; [done|].
  rewrite append_String. cbn [plainURL]. rewrite IH. by rewrite andb_assoc.
Qed.

Lemma plainName_plainURL s : plainName s = true → plainURL s = true.
Proof.
  induction s as [|a s IH]; [done|]. cbn [plainName plainURL].
  intros [Ha Hs]%andb_true_iff. rewrite Ha, IH by done. done.
Qed.

Lemma plainURL_invalidEscape s : plainURL s = true → invalidEscape s = None.
Proof.
  induction s as [|a s IH]; [done|]. cbn [plainURL invalidEscape].
  intros [Ha Hs]%andb_true_iff.
  assert (Ascii.eqb a "%" = false) as ->.
  { destruct (Ascii.eqb_spec a "%") as [->|]; [|done]. by vm_compute in Ha. }
  by apply IH.
Qed.

Lemma transferAPIURL_plain oUser repoName :
  plainName oUser = true → plainName repoName = true →
  plainURL (transferAPIURL oUser repoName) = true
  ∧ invalidEscape (transferAPIURL oUser repoName) = None.
Proof.
  intros Ho Hr.
  assert (plainURL (transferAPIURL oUser repoName) = true) as H.
  { unfold transferAPIURL. rewrite !plainURL_app.
    rewrite (plainName_plainURL _ Ho), (plainName_plainURL _ Hr). by vm_compute. }
  split; [done|]. by apply plainURL_invalidEscape.
Qed.

(** ** The model on the sample world *)

Example sample_prelude : prelude sampleEnv = Ready sampleRun.
Proof. reflexivity. Qed.

Lemma sample_exit : pc (runFor sampleRun 36 (initial sampleRun)) = MExit.
Proof. vm_compute. reflexivity. Qed.

(** Five workers, four repositories: 36 steps, two successes ("a" twice), two
    failures (the unreachable host of "b", the 404 of "c"). *)
Example sample_run :
  let s := runFor sampleRun 36 (initial sampleRun) in
  (pc s, successCount s, failureCount s, c_repo <$> calls s,
   (λ c, resty.attempts (c_exchange c)) <$> calls s, crashed s)
  = (MExit, 2%nat, 2%nat, ["a"; "b"; "c"; "a"], [1; 4; 3; 1]%nat, false).
Proof. vm_compute. reflexivity. Qed.

Example sample_run_not_over_after_35 :
  pc (runFor sampleRun 35 (initial sampleRun)) = MSummary.
Proof. vm_compute. reflexivity. Qed.

(** No host can be reached: every job fails, the run still ends and counts
    them all. *)
Example sample_run_all_failing :
  let r := {| githubToken := "tok"; originalUser := "old"; newUser := "new";
              allRepos := ["a"; "b"; "c"]; client := mainClient; numWorkers := 5;
              remote := λ _ _, unreachableHost |} in
  let s := runFor r 31 (initial r) in
  (pc s, successCount s, failureCount s, crashed s) = (MExit, 0%nat, 3%nat, false).
Proof. vm_compute. reflexivity. Qed.

Example sample_backoff :
  resty.Backoff mainClient unreachableHost
    (transferRequest mainClient "new" "b" "tok")
  = (4%nat, [2000000000; 2123456789; 4246913578],
     resty.Failed "dial tcp: lookup failed").
Proof. vm_compute. reflexivity. Qed.

(** A name with a malformed percent escape, and a client that refuses the
    URL: one attempt, nothing sent, no retry; the job is counted as a
    failure. *)
Lemma escape_exit : pc (runFor escapeRun 21 (initial escapeRun)) = MExit.
Proof. vm_compute. reflexivity. Qed.

Example escape_run :
  let s := runFor escapeRun 21 (initial escapeRun) in
  (successCount s, failureCount s,
   (λ c, (resty.attempts (c_exchange c), resty.waits (c_exchange c))) <$> calls s,
   seen s)
  = (0%nat, 1%nat, [(1%nat, [])],
     ["[FAIL] Worker 1, Repo x%zz: client request for repo x%zz failed: parse "
      +:+ main_test.q +:+ "https://api.github.com/repos/old/x%zz/transfer"
      +:+ main_test.q +:+ ": invalid URL escape " +:+ main_test.q +:+ "%zz"
      +:+ main_test.q]).
Proof. vm_compute. reflexivity. Qed.

Example sample_scans :
  parsesAsSuccess
  <$> ["[SUCCESS] Worker 1, Repo a: Transfer successful";
       "[FAIL] Worker 1, Repo a: client request for repo a failed: EOF";
       "[SUCCESS]x"; "[SUCCESS]"; "[SUCCES"; "[SUCCESS] " +:+ String "010" "x"]
  = [true; false; true; false; false; false].
Proof. vm_compute. reflexivity. Qed.

(** * The claims *)

(** Claim C1.  When a response was delivered, [transferRepo] decides by its
    status code alone: 202 gives nil; 401, 403, 404 and 422 give the
    Unauthorized, Forbidden, not-found and Unprocessable-Entity errors; every
    other code gives the unexpected-status error.  Each error names the
    repository, the numeric code and the text of the response. *)
Theorem transferRepo_classifies_status client wire transferURL newUser repoName
    githubToken res :
  resty.result (fst (transferRepo client wire transferURL newUser repoName githubToken))
  = resty.Answered res →
  let err := snd (transferRepo client wire transferURL newUser repoName githubToken) in
  let code := resty.StatusCode res in
  let body := resty.String_ res in
  (code = 202 → err = None)
  ∧ (code = 401 →
     err = Some ("repo " +:+ repoName
                 +:+ ": Unauthorized (HTTP 401). Check GitHub token and permissions. Response: "
                 +:+ body))
  ∧ (code = 403 →
     err = Some ("repo " +:+ repoName
                 +:+ ": Forbidden (HTTP 403). API rate limits or insufficient permissions. Response: "
                 +:+ body))
  ∧ (code = 404 →
     err = Some ("repo " +:+ repoName
                 +:+ ": Repository or user not found (HTTP 404). Response: " +:+ body))
  ∧ (code = 422 →
     err = Some ("repo " +:+ repoName
                 +:+ ": Unprocessable Entity (HTTP 422). Semantic errors. Response: "
                 +:+ body))
  ∧ (code ≠ 202 → code ≠ 401 → code ≠ 403 → code ≠ 404 → code ≠ 422 →
     err = Some ("repo " +:+ repoName +:+ ": Unexpected status code (HTTP "
                 +:+ fmt.d code +:+ "). Response: " +:+ body)).
Proof.
  intros Hres. cbn zeta. unfold transferRepo in *. cbn [fst snd] in *.
  rewrite Hres. clear Hres.
  repeat split; intros.
  - by rewrite H.
  - by rewrite H.
  - by rewrite H.
  - by rewrite H.
  - by rewrite H.
  - repeat (case_match; [lia|]). done.
Qed.

(** C1 at a concrete exchange: two transport errors, then a 404. *)
Lemma transferRepo_classifies_status_witness :
  snd (transferRepo mainClient flaky "https://api.github.com/repos/old/c/transfer"
         "new" "c" "tok")
  = Some "repo c: Repository or user not found (HTTP 404). Response: gone".
Proof.
  apply (transferRepo_classifies_status mainClient flaky
           "https://api.github.com/repos/old/c/transfer" "new" "c" "tok"
           {| resty.StatusCode := 404; resty.String_ := "gone" |}).
  - reflexivity.
  - reflexivity.
Defined.

(** Claim C2.  For every list of repositories and every number of workers
    from 1 up, whatever the wire does in each call (every round trip ends,
    with a response or a transport error): the run reaches the end of main,
    and in every reachable state in which main has left the summary loop, the
    loop has read as many messages as there are repositories, the two
    counters add up to that number, every repository was the subject of
    exactly one call of [transferRepo], and the messages read are exactly the
    messages of these calls: none lost, none read twice. *)
Theorem aggregator_counts_every_job (r : Run) :
  1 ≤ numWorkers r →
  let final := runFor r (measure r (initial r)) (initial r) in
  (rtc (step r) (initial r) final ∧ pc final = MExit)
  ∧ ∀ s, rtc (step r) (initial r) s → pc s = MExit →
      length (seen s) = length (allRepos r)
      ∧ (successCount s + failureCount s)%nat = length (allRepos r)
      ∧ length (calls s) = length (allRepos r)
      ∧ c_repo <$> calls s ≡ₚ allRepos r
      ∧ seen s ≡ₚ message <$> calls s.
Proof.
  intros HW final. split.
  - subst final. split; [apply runFor_rtc|].
    apply runFor_exit; [by apply inv_initial | lia].
  - intros s Hs Hpc.
    destruct (inv_exit r s HW (inv_reachable r s HW Hs) Hpc) as (_ & Hj & Hres & Htal).
    assert (length (calls s) = length (allRepos r)) as Hlen
      by (by rewrite <- (Permutation_length Hj), length_fmap).
    assert (length (seen s) = length (allRepos r)) as Hseen
      by (by rewrite (Permutation_length Hres), length_fmap).
    split_and!; try done.
    pose proof (summarise_total (seen s)) as Ht. rewrite <- Htal in Ht.
    simpl in Ht. lia.
Qed.

(** C2 on the sample run: four repositories (one of them twice), five
    workers. *)
Lemma aggregator_counts_every_job_witness :
  length (seen (runFor sampleRun 36 (initial sampleRun))) = 4%nat
  ∧ (successCount (runFor sampleRun 36 (initial sampleRun))
     + failureCount (runFor sampleRun 36 (initial sampleRun)))%nat = 4%nat.
Proof.
  assert (1 ≤ numWorkers sampleRun) as HW by (simpl; lia).
  destruct (proj2 (aggregator_counts_every_job sampleRun HW)
              (runFor sampleRun 36 (initial sampleRun))
              (runFor_rtc sampleRun 36 (initial sampleRun)) sample_exit)
    as (H1 & H2 & _).
  split; [exact H1 | exact H2].
Defined.



(** How the loop gets at the verdict: [results] carries text, and the loop
    reads the verdict off it with [fmt.Sscanf] and the format
    ["[SUCCESS]%s"].  One step of the loop adds one to [successCount] when
    the message parses and one to [failureCount] when it does not; a message
    parses exactly when its runes are the literal [[SUCCESS]], then blanks
    other than a newline, then a rune that is not a space; and the counters
    of the whole loop are the numbers of messages that parse and that do
    not. *)
Lemma summary_parses_each_message (r : Run) (s : State) (resMsg : string)
    (c' : Chan) :
  (pc s = MSummary → recv (results s) = Got resMsg c' →
   ∃ s', stepMain r s = Some s'
         ∧ successCount s'
           = (successCount s + if parsesAsSuccess resMsg then 1 else 0)%nat
         ∧ failureCount s'
           = (failureCount s + if parsesAsSuccess resMsg then 0 else 1)%nat)
  ∧ (parsesAsSuccess resMsg = true ↔
     ∃ blanks c rest,
       fmt.runes resMsg = fmt.runes "[SUCCESS]" ++ blanks ++ c :: rest
       ∧ Forall blank blanks ∧ fmt.isSpace c = false)
  ∧ (∀ msgs,
       summarise msgs
       = (length (filter (λ m, parsesAsSuccess m = true) msgs),
          length (filter (λ m, parsesAsSuccess m ≠ true) msgs))).
Proof.
  split_and!.
  - intros Hpc Hrecv. unfold stepMain. rewrite Hpc, Hrecv. eexists. split; [done|].
    simpl. destruct (parsesAsSuccess resMsg); lia.
  - apply parsesAsSuccess_spec.
  - intros msgs. rewrite summarise_counts, !length_filter_sum.
    f_equal; apply sum_list_with_ext; intros m;
      destruct (parsesAsSuccess m); by repeat case_decide.
Qed.

(** Claim C4, amended.  With the client main configures (retry count 3,
    wait 2s, maximal wait 10s), one call of [transferRepo] makes between one
    and four attempts: the first attempt and up to three retries, each after
    a transport error and each with the same request.  Between two attempts
    it sleeps once, between 2s and 10s.  The call ends on the first attempt
    that is not a transport error, or on the fourth transport error, and then
    returns the one client-request error.  However many attempts it took,
    the worker records one call and has one message to publish. *)
Theorem retries_add_three_attempts (wire : resty.Wire)
    (transferURL newUser repoName githubToken : string) :
  let ex := (transferRepo mainClient wire transferURL newUser repoName githubToken).1 in
  let err := (transferRepo mainClient wire transferURL newUser repoName githubToken).2 in
  (1 ≤ resty.attempts ex ≤ 4)%nat
  ∧ length (resty.waits ex) = (resty.attempts ex - 1)%nat
  ∧ Forall (λ d, 2 * resty.Second ≤ d ≤ 10 * resty.Second) (resty.waits ex)
  ∧ resty.result ex = resty.execute wire (resty.sent ex) (resty.attempts ex - 1)
  ∧ (∀ k, (k < resty.attempts ex - 1)%nat →
       ∃ e, resty.execute wire (resty.sent ex) k = resty.Failed e)
  ∧ (∀ e, resty.result ex = resty.Failed e →
       resty.attempts ex = 4%nat
       ∧ err = Some ("client request for repo " +:+ repoName +:+ " failed: " +:+ e))
  ∧ (∀ r i s w,
       pool s !! i = Some w → wpc w = WTransfer repoName →
       ∃ c, c_repo c = repoName
            ∧ stepWorker r i s
              = Some (set_worker i w (WPublish (message c))
                        (set_calls (calls s ++ [c]) s))).
Proof.
  cbn zeta.
  destruct (Post_fields mainClient wire transferURL
              (transferRequest mainClient newUser repoName githubToken))
    as (_ & Hn & Hws & Hres).
  unfold transferRepo. cbn [fst snd]. rewrite Hn, Hws, Hres.
  set (rq := resty.sent _).
  pose proof (backoffLoop_spec mainClient wire rq 3 0) as Hspec.
  unfold resty.Backoff. change (resty.RetryCount mainClient) with 3%nat.
  destruct (resty.backoffLoop mainClient wire rq 3 0) as [[n ws] res].
  destruct Hspec as (Hn' & Hlen & Hres' & Hfail & Hall & Hwaits).
  cbn [fst snd]. split_and!; try done; try lia.
  - eapply Forall_impl; [exact Hwaits|]. intros d (k & draw & ->).
    apply jitterBackoff_bounds.
  - intros k Hk. apply Hfail. lia.
  - intros e He. rewrite He. split; [|done].
    rewrite Hall by (by eexists). done.
  - intros r i s w Hi Hw. unfold stepWorker. rewrite Hi, Hw.
    destruct (transferRepo _ _ _ _ _ _) as [ex' err'] eqn:Hcall.
    by eexists {| c_worker := workerID w; c_repo := repoName;
                  c_exchange := ex'; c_err := err' |}.
Qed.

(** Claim C4, refuted as stated: against a host that cannot be reached the
    request is attempted four times, not three. *)
Lemma three_attempts_refuted :
  ¬ (∀ wire transferURL newUser repoName githubToken,
       (resty.attempts
          (transferRepo mainClient wire transferURL newUser repoName githubToken).1
        ≤ 3)%nat).
Proof.
  intros H.
  specialize (H unreachableHost "https://api.github.com/repos/old/b/transfer"
                "new" "b" "tok").
  vm_compute in H. lia.
Qed.

(** Claim C5.  When the token is empty, or config.json decodes to a
    configuration without originalUser, without newUser or without
    repositories, main ends in [log.Fatal] under every schedule, before the
    channels exist and with no HTTP call made.  Conversely, once the checks
    have passed no answer of the network stops the run: no goroutine panics,
    some goroutine can always move until main has left the summary loop, main
    does get there, and it has then read one message per repository. *)
Theorem only_configuration_errors_are_fatal (env : Environment) :
  (GITHUB_TOKEN_CLASSIC env = ""
   ∨ (∀ data config,
        ReadFile (files env) "config.json" = inr data →
        Unmarshal (files env) data = inr config →
        OriginalUser config = "" ∨ NewUser config = "" ∨ Repositories config = []) →
   ∃ msg, ∀ sched,
     mainProgram env sched = EndFatal msg
     ∧ httpCalls (mainProgram env sched) = [])
  ∧ (∀ r, prelude env = Ready r →
       pc (runFor r (measure r (initial r)) (initial r)) = MExit
       ∧ ∀ sched, ∃ s,
           mainProgram env sched = EndPool s
           ∧ crashed s = false
           ∧ (pc s ≠ MExit → ∃ s', step r s s')
           ∧ (pc s = MExit → length (seen s) = length (allRepos r))).
Proof.
  split.
  - intros Hbad. unfold mainProgram, prelude.
    destruct (dotenv env) as [err|]; [by eexists|].
    case_bool_decide as Htok; [by eexists|].
    destruct Hbad as [?|Hbad]; [done|].
    unfold loadConfig.
    destruct (ReadFile (files env) "config.json") as [err|data] eqn:Hread;
      [by eexists|].
    destruct (Unmarshal (files env) data) as [err|config] eqn:Hjson;
      [by eexists|].
    destruct (Hbad data config eq_refl Hjson) as [Hu|[Hu|Hrepos]].
    + rewrite bool_decide_eq_true_2 by tauto. by eexists.
    + rewrite bool_decide_eq_true_2 by tauto. by eexists.
    + case_bool_decide; [by eexists|]. rewrite Hrepos. by eexists.
  - intros r Hr.
    assert (numWorkers r = 5) as HW5.
    { unfold prelude in Hr. destruct (dotenv env); [done|].
      case_bool_decide; [done|]. destruct (loadConfig _ _); [done|].
      destruct (length _ =? 0)%nat; [done|]. by injection Hr as <-. }
    assert (1 ≤ numWorkers r) as HW by lia.
    split; [apply runFor_exit; [by apply inv_initial | lia]|].
    intros sched. exists (exec r sched (initial r)).
    pose proof (inv_reachable r _ HW (exec_rtc r sched (initial r))) as HI.
    split_and!.
    + unfold mainProgram. by rewrite Hr.
    + apply HI.
    + by apply progress.
    + intros Hpc. destruct (inv_exit r _ HW HI Hpc) as (_ & Hj & Hres & _).
      by rewrite (Permutation_length Hres), length_fmap,
        <- (Permutation_length Hj), length_fmap.
Qed.

(** C5 in a world whose token is empty. *)
Lemma only_configuration_errors_are_fatal_witness :
  ∃ msg, ∀ sched,
    mainProgram
      {| dotenv := None; GITHUB_TOKEN_CLASSIC := "";
         files := sampleFiles sampleConfig; network := sampleNetwork |} sched
    = EndFatal msg
    ∧ httpCalls
        (mainProgram
           {| dotenv := None; GITHUB_TOKEN_CLASSIC := "";
              files := sampleFiles sampleConfig; network := sampleNetwork |} sched)
      = [].
Proof.
  apply (proj1 (only_configuration_errors_are_fatal
                  {| dotenv := None; GITHUB_TOKEN_CLASSIC := "";
                     files := sampleFiles sampleConfig;
                     network := sampleNetwork |})).
  left. reflexivity.
Defined.

(** Claim C6, refuted as stated: not every job has a POST issued for it.
    The names go into the URL as they are; for the repository name "x%zz"
    a client that checks the URL before sending refuses the request, and the
    job ends with nothing sent. *)
Lemma refused_job_is_not_posted :
  ¬ (∀ (r : Run) (s : State),
       1 ≤ numWorkers r → rtc (step r) (initial r) s → pc s = MExit →
       Forall (λ c, isTransferPost r c ∧ posted c) (calls s)).
Proof.
  intros H.
  assert (1 ≤ numWorkers escapeRun) as HW by (simpl; lia).
  specialize (H escapeRun (runFor escapeRun 21 (initial escapeRun)) HW
                (runFor_rtc escapeRun 21 (initial escapeRun)) escape_exit).
  assert ((λ c, resty.result (c_exchange c))
          <$> calls (runFor escapeRun 21 (initial escapeRun))
          = [resty.Refused
               ("parse " +:+ main_test.q
                +:+ "https://api.github.com/repos/old/x%zz/transfer" +:+ main_test.q
                +:+ ": invalid URL escape " +:+ main_test.q +:+ "%zz"
                +:+ main_test.q)]) as Hres
    by (vm_compute; reflexivity).
  destruct (calls (runFor escapeRun 21 (initial escapeRun))) as [|c [|? ?]];
    [done| |done].
  injection Hres as Hres. apply Forall_inv in H as [_ Hposted].
  exact (Hposted _ Hres).
Qed.

(** Claim C6, amended.  When main has left the summary loop, the calls made
    are one per repository of the list (as multisets).  Each call hands the
    client one request: a POST whose URL is the text
    https://api.github.com/repos/<originalUser>/<repo>/transfer with the two
    names put in as they are, whose body is the map new_owner -> newUser,
    new_name -> repo and whose headers hold Accept:
    application/vnd.github+json, Authorization: Bearer <token>,
    X-GitHub-Api-Version: 2022-11-28 and Content-Type: application/json (the
    last one set by resty for a map body).  The client executes this request
    at least once and at most retry count + 1 times, every time the same
    request, once more after each transport error; the outcome of the call
    is that of the last execution.  When both names are made of letters,
    digits, '-', '.' and '_', the URL holds no byte that parsing a URL treats
    specially and no percent escape; and if the client refuses only URLs
    that are not of this kind, the request of such a job is sent. *)
Theorem one_request_per_job (r : Run) (s : State) :
  1 ≤ numWorkers r → rtc (step r) (initial r) s → pc s = MExit →
  c_repo <$> calls s ≡ₚ allRepos r
  ∧ ∀ n c, calls s !! n = Some c →
      let ex := c_exchange c in
      let wire := remote r n (c_repo c) in
      isTransferPost r c
      ∧ (1 ≤ resty.attempts ex ≤ resty.RetryCount (client r) + 1)%nat
      ∧ length (resty.waits ex) = (resty.attempts ex - 1)%nat
      ∧ resty.result ex = resty.execute wire (resty.sent ex) (resty.attempts ex - 1)
      ∧ (∀ k, (k < resty.attempts ex - 1)%nat →
           ∃ e, resty.execute wire (resty.sent ex) k = resty.Failed e)
      ∧ (plainName (originalUser r) = true → plainName (c_repo c) = true →
         plainURL (resty.URL (resty.sent ex)) = true
         ∧ invalidEscape (resty.URL (resty.sent ex)) = None
         ∧ ((∀ rq k e, resty.execute wire rq k = resty.Refused e →
               plainURL (resty.URL rq) = false) →
            posted c)).
Proof.
  intros HW Hs Hpc. pose proof (inv_reachable r s HW Hs) as HI.
  destruct (inv_exit r s HW HI Hpc) as (_ & Hj & _ & _). split; [done|].
  intros n c Hc. cbn zeta. unfold isTransferPost, posted.
  rewrite (inv_calls _ _ HI n c Hc). unfold callOf.
  pose proof (transferRepo_request (client r) (remote r n (c_repo c))
                (transferAPIURL (originalUser r) (c_repo c)) (newUser r)
                (c_repo c) (githubToken r)) as Hrq.
  pose proof (transferRepo_exchange (client r) (remote r n (c_repo c))
                (transferAPIURL (originalUser r) (c_repo c)) (newUser r)
                (c_repo c) (githubToken r)) as Hex.
  destruct (Post_fields (client r) (remote r n (c_repo c))
              (transferAPIURL (originalUser r) (c_repo c))
              (transferRequest (client r) (newUser r) (c_repo c) (githubToken r)))
    as (_ & Hn & Hws & Hres).
  rewrite <- Hex in Hn, Hws, Hres.
  destruct (transferRepo _ _ _ _ _ _) as [ex err].
  cbn [fst snd c_exchange c_repo] in *. cbn zeta in Hrq.
  split; [exact Hrq|].
  destruct Hrq as (_ & Hurl & _).
  set (rq := resty.sent ex) in *.
  pose proof (backoffLoop_spec (client r) (remote r n (c_repo c)) rq
                (resty.RetryCount (client r)) 0) as Hspec.
  unfold resty.Backoff in Hn, Hws, Hres.
  destruct (resty.backoffLoop _ _ _ _ _) as [[m ws] a].
  cbn [fst snd] in *.
  destruct Hspec as (Hm & Hlen & Ha & Hfail & _ & _).
  rewrite Hn, Hws. split_and!; try done; try lia.
  - by rewrite Hres.
  - intros k Hk. apply Hfail. lia.
  - intros Ho Hr. rewrite Hurl.
    destruct (transferAPIURL_plain _ _ Ho Hr) as [Hplain Hesc].
    split_and!; [done | done |].
    intros Hrefuse e He. rewrite Hres, Ha in He.
    apply Hrefuse in He. rewrite Hurl in He. congruence.
Qed.

(** C6 on the sample run. *)
Lemma one_request_per_job_witness :
  c_repo <$> calls (runFor sampleRun 36 (initial sampleRun)) ≡ₚ allRepos sampleRun
  ∧ ∀ n c, calls (runFor sampleRun 36 (initial sampleRun)) !! n = Some c →
      isTransferPost sampleRun c
      ∧ (1 ≤ resty.attempts (c_exchange c) ≤ 4)%nat.
Proof.
  assert (1 ≤ numWorkers sampleRun) as HW by (simpl; lia).
  destruct (one_request_per_job sampleRun (runFor sampleRun 36 (initial sampleRun)) HW
              (runFor_rtc sampleRun 36 (initial sampleRun)) sample_exit)
    as [Hperm Hcalls].
  split; [exact Hperm|]. intros n c Hc.
  destruct (Hcalls n c Hc) as (Hpost & Hn & _). split; [exact Hpost | exact Hn].
Defined.

(** Claim C7, refuted as stated: the error does not carry a bounded excerpt
    of the response.  No bound holds for the length of the error of a 500
    response, since the response text is copied whole. *)
Lemma failure_body_is_not_bounded :
  ¬ (∃ bound : nat, ∀ body msg,
       (transferRepo mainClient (answering 500 body)
          "https://api.github.com/repos/old/r/transfer" "new" "r" "tok").2
       = Some msg →
       (String.length msg ≤ bound)%nat).
Proof.
  intros [bound H].
  specialize (H (letters (S bound)) _ eq_refl).
  change (String.length
            ("repo r: Unexpected status code (HTTP 500). Response: "
             +:+ letters (S bound)) ≤ bound)%nat in H.
  rewrite length_append, length_letters in H. lia.
Qed.

(** Claim C7, amended.  Every error [transferRepo] returns names the
    repository.  After a transport error, or when the client refused the
    request, it carries the text of that error and no status code.  After a response (whose code is then not 202) it
    carries the numeric status code and the whole text of the response,
    however long. *)
Theorem failure_carries_repo_status_and_whole_body (client : resty.Client)
    (wire : resty.Wire) (transferURL newUser repoName githubToken msg : string) :
  (transferRepo client wire transferURL newUser repoName githubToken).2 = Some msg →
  match resty.result
          (transferRepo client wire transferURL newUser repoName githubToken).1 with
  | resty.Refused err | resty.Failed err =>
      msg = "client request for repo " +:+ repoName +:+ " failed: " +:+ err
  | resty.Answered res =>
      resty.StatusCode res ≠ 202
      ∧ ∃ label advice,
          msg = "repo " +:+ repoName +:+ ": " +:+ label +:+ " (HTTP "
                +:+ fmt.d (resty.StatusCode res) +:+ ")." +:+ advice
                +:+ " Response: " +:+ resty.String_ res
  end.
Proof.
  unfold transferRepo. cbn [fst snd].
  destruct (resty.result _) as [err|err|res]; [by intros [= <-]..|].
  repeat case_match; intros [= <-]; (split; [lia|]).
  - by exists "Unauthorized", " Check GitHub token and permissions.".
  - by exists "Forbidden", " API rate limits or insufficient permissions.".
  - by exists "Repository or user not found", "".
  - by exists "Unprocessable Entity", " Semantic errors.".
  - by exists "Unexpected status code", "".
Qed.

(** C7 at a concrete exchange that ends in a 404. *)
Lemma failure_carries_repo_status_and_whole_body_witness :
  ∃ label advice,
    "repo c: Repository or user not found (HTTP 404). Response: gone"
    = "repo " +:+ "c" +:+ ": " +:+ label +:+ " (HTTP " +:+ fmt.d 404 +:+ ")."
      +:+ advice +:+ " Response: " +:+ "gone".
Proof.
  exact (proj2 (failure_carries_repo_status_and_whole_body mainClient flaky
                  "https://api.github.com/repos/old/c/transfer" "new" "c" "tok"
                  "repo c: Repository or user not found (HTTP 404). Response: gone"
                  eq_refl)).
Defined.

(** Claim C8.  For every list of repositories (repeats allowed) and every
    number of workers from 1 up, provided every round trip ends: no goroutine
    panics; every step of every goroutine brings the run one step closer to
    its end, which is [2 * numWorkers + 6 + 5 * len(allRepos)] steps away
    from the start, so no schedule runs for ever; in every reachable state
    short of the end of main some goroutine can move, so nothing deadlocks;
    at the end every worker has left its loop and every repository was
    called for exactly once.  When moreover the network answers a repository
    the same way whenever it is called, the multiset of the values returned
    by [transferRepo] is the same for any two numbers of workers. *)
Theorem pool_drains_and_outcomes_ignore_worker_count (r : Run) :
  1 ≤ numWorkers r →
  (∀ n s, nsteps (step r) n (initial r) s →
     crashed s = false
     ∧ (n + measure r s)%nat = measure r (initial r)
     ∧ (pc s ≠ MExit → ∃ s', step r s s')
     ∧ (pc s = MExit →
        Forall (λ w, wpc w = WFinished) (pool s)
        ∧ Z.of_nat (length (pool s)) = numWorkers r
        ∧ c_repo <$> calls s ≡ₚ allRepos r))
  ∧ Z.of_nat (measure r (initial r))
    = 2 * numWorkers r + 6 + 5 * Z.of_nat (length (allRepos r))
  ∧ (∀ W' s s',
       1 ≤ W' →
       (∀ n repoName, remote r n repoName = remote r 0%nat repoName) →
       rtc (step r) (initial r) s → pc s = MExit →
       rtc (step (withWorkers W' r)) (initial (withWorkers W' r)) s' →
       pc s' = MExit →
       c_err <$> calls s ≡ₚ c_err <$> calls s').
Proof.
  intros HW. split_and!.
  - intros n s Hn.
    destruct (steps_measure r n _ _ (inv_initial r HW) Hn) as [HI Hm].
    split_and!.
    + apply HI.
    + lia.
    + by apply progress.
    + intros Hpc. destruct (inv_exit r s HW HI Hpc) as (Hall & Hj & _ & _).
      split_and!; try done.
      pose proof (inv_phase _ _ HI) as Hph. unfold phase in Hph.
      rewrite Hpc in Hph. tauto.
  - unfold measure, initial, mainWeight. simpl. lia.
  - intros W' s s' HW' Hst Hs Hpc Hs' Hpc'.
    pose proof (inv_reachable r s HW Hs) as HI.
    pose proof (inv_reachable (withWorkers W' r) s' HW' Hs') as HI'.
    destruct (inv_exit r s HW HI Hpc) as (_ & Hj & _ & _).
    destruct (inv_exit (withWorkers W' r) s' HW' HI' Hpc') as (_ & Hj' & _ & _).
    rewrite (calls_errOf r s Hst HI).
    rewrite (calls_errOf (withWorkers W' r) s' Hst HI').
    rewrite Hj, Hj'. done.
Qed.

(** C8 on the sample run, with five workers and with two. *)
Lemma pool_drains_and_outcomes_ignore_worker_count_witness :
  c_err <$> calls (runFor sampleRun 36 (initial sampleRun))
  ≡ₚ c_err <$> calls (runFor (withWorkers 2 sampleRun) 30
                         (initial (withWorkers 2 sampleRun))).
Proof.
  assert (1 ≤ numWorkers sampleRun) as HW by (simpl; lia).
  apply (proj2 (proj2 (pool_drains_and_outcomes_ignore_worker_count sampleRun HW))
           2).
  - lia.
  - reflexivity.
  - apply runFor_rtc.
  - vm_compute. reflexivity.
  - apply runFor_rtc.
  - vm_compute. reflexivity.
Defined.

(** Claim C9.  The message a worker formats parses under ["[SUCCESS]%s"]
    exactly when [transferRepo] returned nil.  Hence, when main has left the
    summary loop, the messages it has read are those of the calls,
    [successCount] is the number of calls that returned nil and
    [failureCount] the number of calls that returned an error. *)
Theorem sscanf_tally_agrees_with_outcomes (r : Run) (s : State) :
  1 ≤ numWorkers r → rtc (step r) (initial r) s → pc s = MExit →
  (∀ workerID repoName err,
     parsesAsSuccess (resultMessage workerID repoName err) = true ↔ err = None)
  ∧ seen s ≡ₚ message <$> calls s
  ∧ successCount s = length (filter (λ c, c_err c = None) (calls s))
  ∧ failureCount s = length (filter (λ c, c_err c ≠ None) (calls s)).
Proof.
  intros HW Hs Hpc.
  destruct (inv_exit r s HW (inv_reachable r s HW Hs) Hpc) as (_ & _ & Hres & Htal).
  rewrite summarise_counts, Hres in Htal. injection Htal as Hsc Hfc.
  split_and!.
  - intros. rewrite parsesAsSuccess_resultMessage. apply bool_decide_eq_true.
  - done.
  - rewrite Hsc, length_filter_sum. apply sum_list_with_fmap_ext.
    intros c. unfold message. rewrite parsesAsSuccess_resultMessage.
    by destruct (c_err c).
  - rewrite Hfc, length_filter_sum. apply sum_list_with_fmap_ext.
    intros c. unfold message. rewrite parsesAsSuccess_resultMessage.
    by destruct (c_err c).
Qed.

(** C9 on the sample run. *)
Lemma sscanf_tally_agrees_with_outcomes_witness :
  successCount (runFor sampleRun 36 (initial sampleRun))
  = length (filter (λ c, c_err c = None)
              (calls (runFor sampleRun 36 (initial sampleRun)))).
Proof.
  assert (1 ≤ numWorkers sampleRun) as HW by (simpl; lia).
  exact (proj1 (proj2 (proj2
           (sscanf_tally_agrees_with_outcomes sampleRun
              (runFor sampleRun 36 (initial sampleRun)) HW
              (runFor_rtc sampleRun 36 (initial sampleRun)) sample_exit)))).
Defined.

(** Claim C10.  A configuration returned by [loadConfig] has a non-empty
    list of repositories; so the early return of main for an empty list is
    never taken, under any environment and schedule. *)
Theorem loadConfig_repositories_nonempty (fs : FileSystem) (filePath : string)
    (config : Config) :
  loadConfig fs filePath = inr config →
  Repositories config ≠ []
  ∧ ∀ env sched, mainProgram env sched ≠ EndNoRepos.
Proof.
  assert (∀ fs' p c, loadConfig fs' p = inr c → Repositories c ≠ []) as Hload.
  { intros fs' p c. unfold loadConfig.
    destruct (ReadFile fs' p); [done|].
    destruct (Unmarshal fs' _) as [|c']; [done|].
    case_bool_decide; [done|].
    destruct (Repositories c') eqn:Hr; simpl; [by intros [=]|].
    intros [= <-]. by rewrite Hr. }
  intros Hc. split; [by eapply Hload|].
  intros env sched. unfold mainProgram, prelude.
  destruct (dotenv env); [done|]. case_bool_decide; [done|].
  destruct (loadConfig (files env) "config.json") as [|c] eqn:Hl; [done|].
  apply Hload in Hl. by destruct (Repositories c).
Qed.

(** C10 for the sample configuration. *)
Lemma loadConfig_repositories_nonempty_witness :
  Repositories sampleConfig ≠ []
  ∧ ∀ env sched, mainProgram env sched ≠ EndNoRepos.
Proof.
  apply (loadConfig_repositories_nonempty (sampleFiles sampleConfig) "config.json").
  reflexivity.
Defined.

(** * Further properties of the code *)

(** ** The order of the jobs and the identity of the workers *)

Lemma order_initial r : Order r (initial r).
Proof.
  split; simpl; try done. by exists [].
Qed.

Lemma order_step_main r s s' :
  Inv r s → Order r s → stepMain r s = Some s' → Order r s'.
Proof.
  intros HI [[started Hst] Hids Hcalls Hseen] Ht.
  pose proof (inv_phase _ _ HI) as Hph.
  destruct s as [p jb rs g pl sc fc sn cl cr]; simpl in *.
  unfold stepMain, phase, unfed in *; simpl in *.
  destruct p as [w|rest| | | | |]; simpl in *.
  - destruct (Z.leb_spec w (numWorkers r)); simplify_eq; split; simpl; eauto.
    + intros i w' [[_ Hi]|[-> <-]]%lookup_snoc_Some; [by apply Hids|].
      simpl. lia.
    + rewrite length_app. simpl. eapply Forall_impl; [done|]. simpl. lia.
  - destruct Hph as (_ & Hcj & _). destruct rest as [|repo rest]; simplify_eq.
    + split; simpl; eauto.
    + unfold send in Ht. rewrite Hcj in Ht.
      destruct (length (buf jb) <? cap jb)%nat; simplify_eq.
      split; simpl; try done. exists started. by rewrite <- app_assoc.
  - destruct Hph as (_ & Hcj & _). unfold close in Ht. rewrite Hcj in Ht.
    simplify_eq. split; simpl; eauto.
  - destruct g; simpl in Ht; simplify_eq. split; simpl; eauto.
  - destruct Hph as (_ & _ & Hcr & _). unfold close in Ht. rewrite Hcr in Ht.
    simplify_eq. split; simpl; eauto.
  - unfold recv in Ht. destruct (buf rs) as [|resMsg rest];
      [destruct (closed rs)|]; simplify_eq; split; simpl; eauto.
  - done.
Qed.

Opaque transferRepo resultMessage transferAPIURL.

Lemma order_step_worker r i s s' :
  Order r s → stepWorker r i s = Some s' → Order r s'.
Proof.
  intros [[started Hst] Hids Hcalls Hseen] Ht.
  destruct s as [p jb rs g pl sc fc sn cl cr]; simpl in *.
  unfold stepWorker, set_worker in Ht; simpl in Ht.
  destruct (pl !! i) as [w|] eqn:Hi; [|done].
  assert (∀ x j w', <[i := {| workerID := workerID w; wpc := x |}]> pl !! j = Some w' →
            workerID w' = Z.of_nat j + 1) as Hids'.
  { intros x j w' Hj. destruct (decide (i = j)) as [->|Hne].
    - rewrite list_lookup_insert_eq in Hj by (by eapply lookup_lt_Some).
      injection Hj as <-. simpl. by apply Hids.
    - rewrite list_lookup_insert_ne in Hj by done. by apply Hids. }
  pose proof (lookup_lt_Some _ _ _ Hi) as Hlt.
  unfold unfed in *. simpl in *.
  destruct (wpc w) as [|repoName|msg|] eqn:Hw.
  - unfold recv in Ht. destruct (buf jb) as [|repoName rest] eqn:Hbuf.
    + destruct (closed jb); [|done]. destruct g; simplify_eq;
        split; simpl; rewrite ?length_insert, ?Hbuf; eauto.
    + simplify_eq. split; simpl; rewrite ?length_insert; eauto.
      exists (started ++ [repoName]). by rewrite <- app_assoc.
  - destruct (transferRepo _ _ _ _ _ _) as [ex err]. simplify_eq.
    split; simpl; rewrite ?length_insert; eauto.
    apply Forall_app. split; [done|]. constructor; [|done]. simpl.
    rewrite (Hids i w Hi). lia.
  - unfold send in Ht. destruct (closed rs); simplify_eq;
      [split; simpl; eauto|].
    destruct (length (buf rs) <? cap rs)%nat; simplify_eq.
    split; simpl; rewrite ?length_insert; eauto.
  - done.
Qed.

Transparent transferRepo resultMessage transferAPIURL.

Lemma order_reachable r s :
  1 ≤ numWorkers r → rtc (step r) (initial r) s → Inv r s ∧ Order r s.
Proof.
  intros HW. revert s. apply rtc_ind_r.
  - split; [by apply inv_initial | apply order_initial].
  - intros y z _ Hyz [HI HO]. split; [by eapply inv_step|].
    destruct Hyz as [t Ht]. unfold tick in Ht.
    rewrite (inv_crashed _ _ HI) in Ht. destruct t.
    + by eapply order_step_main.
    + by eapply order_step_worker.
Qed.

(** Once the WaitGroup is back at zero with all workers started, the pool
    has drained. *)
Lemma inv_drained r s :
  1 ≤ numWorkers r → Inv r s →
  pc s = MCloseResults ∨ pc s = MSummary ∨ pc s = MExit →
  Forall (λ w, wpc w = WFinished) (pool s)
  ∧ c_repo <$> calls s ≡ₚ allRepos r
  ∧ seen s ++ buf (results s) ≡ₚ message <$> calls s.
Proof.
  intros HW [Hcr Hcj Hcr' Hj Hres _ Htal Hwg Hfin Hph] Hpc.
  unfold phase, unfed in *.
  assert (Z.of_nat (length (pool s)) = numWorkers r ∧ wg s = 0%nat) as [Hl Hg]
    by (destruct Hpc as [Hpc|[Hpc|Hpc]]; rewrite Hpc in Hph; tauto).
  assert (match pc s with MSpawn _ => allRepos r | MDistribute rest => rest
                     | _ => [] end = []) as Hunfed
    by (by destruct Hpc as [Hpc|[Hpc|Hpc]]; rewrite Hpc).
  rewrite Hg in Hwg. symmetry in Hwg.
  destruct (nobody_alive _ Hwg) as (Hall & Hheld & Hpend).
  destruct Hfin as [_ Hjobs]; [lia|].
  rewrite Hheld, Hjobs, Hunfed in Hj. rewrite Hpend in Hres.
  simpl in *. rewrite !app_nil_r in *. done.
Qed.

(** ** Extra properties *)

Lemma loadConfig_inr fs filePath config :
  loadConfig fs filePath = inr config →
  ∃ data, ReadFile fs filePath = inr data ∧ Unmarshal fs data = inr config
          ∧ OriginalUser config ≠ "" ∧ NewUser config ≠ ""
          ∧ Repositories config ≠ [].
Proof.
  unfold loadConfig.
  destruct (ReadFile fs filePath) as [err|data]; [done|].
  destruct (Unmarshal fs data) as [err|c] eqn:Hjson; [done|].
  case_bool_decide as Husers; [done|].
  destruct (Repositories c) as [|repo repos] eqn:Hrepos; simpl; [done|].
  intros [= <-]. exists data. rewrite Hrepos. split_and!; try done; tauto.
Qed.

(** X1.  [loadConfig] returns a configuration exactly when the file can be
    read, its content decodes, both users are non-empty and the list of
    repositories is non-empty; the configuration returned is the decoded one.
    A missing user is reported before an empty list: when both are wrong the
    error is the one about the users. *)
Theorem loadConfig_succeeds_iff (fs : FileSystem) (filePath : string)
    (config : Config) :
  (loadConfig fs filePath = inr config ↔
   ∃ data, ReadFile fs filePath = inr data ∧ Unmarshal fs data = inr config
           ∧ OriginalUser config ≠ "" ∧ NewUser config ≠ ""
           ∧ Repositories config ≠ [])
  ∧ (∀ data, ReadFile fs filePath = inr data → Unmarshal fs data = inr config →
       OriginalUser config = "" ∨ NewUser config = "" →
       loadConfig fs filePath
       = inl "originalUser and newUser must be specified in config").
Proof.
  split; [split; [apply loadConfig_inr|] |].
  - intros (data & Hread & Hjson & Hu & Hn & Hr). unfold loadConfig.
    rewrite Hread, Hjson. rewrite bool_decide_eq_false_2 by tauto.
    by destruct (Repositories config).
  - intros data Hread Hjson Husers. unfold loadConfig.
    by rewrite Hread, Hjson, bool_decide_eq_true_2.
Qed.

(** X2.  When [main] gets as far as starting workers, it does so with a
    non-empty token, non-empty users and a non-empty list taken from
    config.json, five workers, and the client with three retries. *)
Theorem pool_starts_with_valid_inputs (env : Environment) (r : Run) :
  prelude env = Ready r →
  dotenv env = None
  ∧ githubToken r = GITHUB_TOKEN_CLASSIC env ∧ githubToken r ≠ ""
  ∧ (∃ config, loadConfig (files env) "config.json" = inr config
               ∧ originalUser r = OriginalUser config
               ∧ newUser r = NewUser config
               ∧ allRepos r = Repositories config)
  ∧ originalUser r ≠ "" ∧ newUser r ≠ "" ∧ allRepos r ≠ []
  ∧ numWorkers r = 5 ∧ client r = mainClient
  ∧ resty.RetryCount (client r) = 3%nat.
Proof.
  unfold prelude. destruct (dotenv env); [done|].
  case_bool_decide as Htok; [done|].
  destruct (loadConfig (files env) "config.json") as [|config] eqn:Hload; [done|].
  destruct (loadConfig_inr _ _ _ Hload) as (_ & _ & _ & Hu & Hn & Hr).
  destruct (length (Repositories config) =? 0)%nat; [done|].
  intros [= <-]. simpl. split_and!; try done. by exists config.
Qed.

(** X2 in the sample world. *)
Lemma pool_starts_with_valid_inputs_witness :
  githubToken sampleRun ≠ "" ∧ allRepos sampleRun ≠ [] ∧ numWorkers sampleRun = 5.
Proof.
  destruct (pool_starts_with_valid_inputs sampleEnv sampleRun eq_refl)
    as (_ & _ & ? & _ & _ & _ & ? & ? & _).
  done.
Defined.

(** X3.  The two channels are large enough: in every reachable state, the
    send main is about to make on [jobs] and the send any worker is about to
    make on [results] goes through at once (the buffer has room and the
    channel is open).  The room is needed: when main closes [results], its
    buffer holds one message per repository, which is its capacity. *)
Theorem sends_never_wait (r : Run) (s : State) :
  1 ≤ numWorkers r → rtc (step r) (initial r) s →
  (∀ repo rest, pc s = MDistribute (repo :: rest) →
     ∃ c', send repo (jobs s) = Sent c')
  ∧ (∀ i w msg, pool s !! i = Some w → wpc w = WPublish msg →
       ∃ c', send msg (results s) = Sent c')
  ∧ (pc s = MCloseResults →
     length (buf (results s)) = cap (results s)
     ∧ cap (results s) = length (allRepos r)).
Proof.
  intros HW Hs. destruct (order_reachable r s HW Hs) as [HI HO].
  pose proof (calls_bounded r s HI) as Hcalls.
  pose proof (inv_jobs _ _ HI) as Hj. pose proof (inv_results _ _ HI) as Hres.
  pose proof (inv_phase _ _ HI) as Hph. unfold phase in Hph.
  apply Permutation_length in Hj, Hres.
  rewrite !length_app, !length_fmap in Hj, Hres. split_and!.
  - intros repo rest Hpc. unfold send, unfed in *. rewrite Hpc in *.
    destruct Hph as (_ & -> & _). rewrite length_app in Hj. simpl in Hj.
    rewrite (inv_cap_jobs _ _ HI).
    destruct (Nat.ltb_spec (length (buf (jobs s))) (length (allRepos r)));
      [by eexists | lia].
  - intros i w msg Hi Hw. unfold send.
    pose proof (flat_map_lookup_length pending _ i w Hi) as Hp.
    unfold pending at 1 in Hp. rewrite Hw in Hp. simpl in Hp.
    pose proof (sum_list_with_lookup alive _ i w Hi) as Ha.
    unfold alive at 1 in Ha. rewrite Hw in Ha. rewrite <- (inv_wg _ _ HI) in Ha.
    assert (closed (results s) = false) as ->
      by (destruct (pc s); try tauto; destruct Hph as (_ & _ & _ & ? & _) || 
          destruct Hph as (_ & _ & _ & ?); lia).
    rewrite (inv_cap_results _ _ HI).
    destruct (Nat.ltb_spec (length (buf (results s))) (length (allRepos r)));
      [by eexists | lia].
  - intros Hpc.
    destruct (inv_drained r s HW HI (or_introl Hpc)) as (_ & Hj' & Hres').
    pose proof (ord_seen _ _ HO) as Hseen. rewrite Hpc in Hseen.
    rewrite Hseen in Hres'. simpl in Hres'.
    rewrite (inv_cap_results _ _ HI). split; [|done].
    by rewrite (Permutation_length Hres'), length_fmap,
      <- (Permutation_length Hj'), length_fmap.
Qed.

(** X3 on the sample run, at the moment main closes [results]. *)
Lemma sends_never_wait_witness :
  length (buf (results (runFor sampleRun 30 (initial sampleRun)))) = 4%nat
  ∧ cap (results (runFor sampleRun 30 (initial sampleRun))) = 4%nat.
Proof.
  assert (1 ≤ numWorkers sampleRun) as HW by (simpl; lia).
  destruct (proj2 (proj2 (sends_never_wait sampleRun
                            (runFor sampleRun 30 (initial sampleRun)) HW
                            (runFor_rtc sampleRun 30 (initial sampleRun))))
              ltac:(vm_compute; reflexivity)) as [H1 H2].
  split; [by rewrite H1, H2 | exact H2].
Defined.

(** X4.  The tally starts only after the pool has drained: in every
    reachable state in which main is in the summary loop or past it, or has
    read a message at all, every worker has left its loop, every repository
    has been called for once, and the messages of these calls are the ones
    already read together with the ones still in [results]. *)
Theorem summary_starts_after_drain (r : Run) (s : State) :
  1 ≤ numWorkers r → rtc (step r) (initial r) s →
  pc s = MSummary ∨ pc s = MExit ∨ seen s ≠ [] →
  Forall (λ w, wpc w = WFinished) (pool s)
  ∧ c_repo <$> calls s ≡ₚ allRepos r
  ∧ seen s ++ buf (results s) ≡ₚ message <$> calls s.
Proof.
  intros HW Hs Hlate. destruct (order_reachable r s HW Hs) as [HI HO].
  apply (inv_drained r s HW HI).
  pose proof (ord_seen _ _ HO) as Hseen.
  destruct Hlate as [?|[?|Hne]]; [tauto | tauto |].
  destruct (pc s); tauto.
Qed.

(** X4 on the sample run, in the middle of the summary loop. *)
Lemma summary_starts_after_drain_witness :
  c_repo <$> calls (runFor sampleRun 33 (initial sampleRun)) ≡ₚ allRepos sampleRun.
Proof.
  assert (1 ≤ numWorkers sampleRun) as HW by (simpl; lia).
  refine (proj1 (proj2 (summary_starts_after_drain sampleRun
                          (runFor sampleRun 33 (initial sampleRun)) HW
                          (runFor_rtc sampleRun 33 (initial sampleRun)) _))).
  left. vm_compute. reflexivity.
Defined.

(** X5.  Jobs are handed out in the order of the list: in every reachable
    state the repositories already taken by workers (called for, or held by
    a worker about to call) make up a beginning of [allRepos], and what
    follows it is the content of [jobs], in order, and then the repositories
    main has still to send. *)
Theorem jobs_are_taken_in_list_order (r : Run) (s : State) :
  1 ≤ numWorkers r → rtc (step r) (initial r) s →
  ∃ started,
    allRepos r = started ++ buf (jobs s) ++ unfed r s
    ∧ started ≡ₚ (c_repo <$> calls s) ++ flat_map held (pool s).
Proof.
  intros HW Hs. destruct (order_reachable r s HW Hs) as [HI HO].
  destruct (ord_jobs _ _ HO) as [started Hst]. exists started. split; [done|].
  pose proof (inv_jobs _ _ HI) as Hj.
  rewrite (app_assoc (c_repo <$> calls s)) in Hj.
  rewrite Hst in Hj at 1. by apply Permutation_app_inv_r in Hj.
Qed.

(** X5 on the sample run, while workers are busy. *)
Lemma jobs_are_taken_in_list_order_witness :
  ∃ started,
    allRepos sampleRun
    = started ++ buf (jobs (runFor sampleRun 20 (initial sampleRun)))
      ++ unfed sampleRun (runFor sampleRun 20 (initial sampleRun))
    ∧ started ≡ₚ (c_repo <$> calls (runFor sampleRun 20 (initial sampleRun)))
                 ++ flat_map held (pool (runFor sampleRun 20 (initial sampleRun))).
Proof.
  assert (1 ≤ numWorkers sampleRun) as HW by (simpl; lia).
  exact (jobs_are_taken_in_list_order sampleRun
           (runFor sampleRun 20 (initial sampleRun)) HW
           (runFor_rtc sampleRun 20 (initial sampleRun))).
Defined.

(** X6.  At most [numWorkers] transfers are in flight: in every reachable
    state the pool has at most [numWorkers] workers, numbered 1, 2, ... in
    the order they were started, each holds at most one job (a repository
    about to be called for, or a message about to be published), and every
    call was made by a worker whose number is between 1 and [numWorkers]. *)
Theorem at_most_numWorkers_in_flight (r : Run) (s : State) :
  1 ≤ numWorkers r → rtc (step r) (initial r) s →
  Z.of_nat (length (pool s)) ≤ numWorkers r
  ∧ (length (flat_map held (pool s)) + length (flat_map pending (pool s))
     ≤ length (pool s))%nat
  ∧ (∀ i w, pool s !! i = Some w → workerID w = Z.of_nat i + 1)
  ∧ Forall (λ c, 1 ≤ c_worker c ≤ numWorkers r) (calls s).
Proof.
  intros HW Hs. destruct (order_reachable r s HW Hs) as [HI HO].
  assert (Z.of_nat (length (pool s)) ≤ numWorkers r) as Hlen.
  { pose proof (inv_phase _ _ HI) as Hph. unfold phase in Hph.
    destruct (pc s); lia || tauto. }
  split_and!; [done | | apply HO |].
  - clear. induction (pool s) as [|w l IH]; simpl; [lia|].
    rewrite !length_app. unfold held at 1, pending at 1.
    destruct (wpc w); simpl; lia.
  - eapply Forall_impl; [apply (ord_calls _ _ HO)|]. simpl. lia.
Qed.

(** X6 on the sample run. *)
Lemma at_most_numWorkers_in_flight_witness :
  Forall (λ c, 1 ≤ c_worker c ≤ 5)
    (calls (runFor sampleRun 36 (initial sampleRun))).
Proof.
  assert (1 ≤ numWorkers sampleRun) as HW by (simpl; lia).
  exact (proj2 (proj2 (proj2
           (at_most_numWorkers_in_flight sampleRun
              (runFor sampleRun 36 (initial sampleRun)) HW
              (runFor_rtc sampleRun 36 (initial sampleRun)))))).
Defined.

(** X7.  Only transport errors are retried.  Whatever the client's retry
    count, a call of [transferRepo] ends with the first round trip that gets
    a response, whatever its status (a 500 or a 403 is not retried): if the
    round trips before number [k] fail and number [k] is answered, with [k]
    within the retry count, the call makes [k + 1] round trips and [k]
    sleeps, and classifies that response. *)
Theorem first_response_ends_the_call (client : resty.Client) (wire : resty.Wire)
    (transferURL newUser repoName githubToken : string) (k : nat)
    (res : resty.Response) :
  let ex := (transferRepo client wire transferURL newUser repoName githubToken).1 in
  (k ≤ resty.RetryCount client)%nat →
  (∀ j, (j < k)%nat → ∃ e, resty.execute wire (resty.sent ex) j = resty.Failed e) →
  resty.execute wire (resty.sent ex) k = resty.Answered res →
  resty.attempts ex = S k
  ∧ length (resty.waits ex) = k
  ∧ resty.result ex = resty.Answered res.
Proof.
  cbn zeta. rewrite transferRepo_exchange. intros Hk Hfail Hans.
  destruct (Post_fields client wire transferURL
              (transferRequest client newUser repoName githubToken))
    as (_ & Hn & Hws & Hres).
  rewrite Hn, Hws, Hres. unfold resty.Backoff.
  set (rq := resty.sent _) in *.
  pose proof (backoffLoop_spec client wire rq (resty.RetryCount client) 0) as Hspec.
  destruct (resty.backoffLoop client wire rq (resty.RetryCount client) 0)
    as [[n ws] a].
  destruct Hspec as (Hn' & Hlen & Ha & Hbefore & Hall & _). cbn [fst snd].
  assert (n = S k) as ->.
  { destruct (Nat.lt_trichotomy (n - 1) k) as [Hlt|[Heq|Hgt]]; [|lia|].
    - destruct (Hfail _ Hlt) as [e He]. rewrite He in Ha.
      specialize (Hall (ex_intro _ e Ha)). lia.
    - destruct (Hbefore k) as [e He]; [lia|]. congruence. }
  split_and!; [done | lia |].
  rewrite Ha. replace (S k - 1)%nat with k by lia. done.
Qed.

(** X7 for two transport errors followed by a 404. *)
Lemma first_response_ends_the_call_witness :
  resty.attempts
    (transferRepo mainClient flaky "https://api.github.com/repos/old/c/transfer"
       "new" "c" "tok").1 = 3%nat.
Proof.
  refine (proj1 (first_response_ends_the_call mainClient flaky
                   "https://api.github.com/repos/old/c/transfer" "new" "c" "tok"
                   2 {| resty.StatusCode := 404; resty.String_ := "gone" |}
                   _ _ eq_refl)).
  - simpl. lia.
  - intros j Hj. exists "connection reset". unfold flaky. simpl.
    destruct (Nat.ltb_spec j 2); [done|lia].
Defined.

(** X8.  The token goes into the Authorization header of the request and
    nowhere else in it: the header is "Bearer " followed by the token, and
    two calls of [transferRepo] that differ in the token only hand the client
    requests with the same method, URL, body and other headers. *)
Theorem token_only_in_authorization_header (client : resty.Client)
    (wire : resty.Wire) (transferURL newUser repoName token token' : string) :
  let call := transferRepo client wire transferURL newUser repoName token in
  let call' := transferRepo client wire transferURL newUser repoName token' in
  resty.Header (resty.sent call.1) !! "Authorization" = Some ("Bearer " +:+ token)
  ∧ delete "Authorization" (resty.Header (resty.sent call.1))
    = delete "Authorization" (resty.Header (resty.sent call'.1))
  ∧ resty.Method (resty.sent call.1) = resty.Method (resty.sent call'.1)
  ∧ resty.URL (resty.sent call.1) = resty.URL (resty.sent call'.1)
  ∧ resty.Body (resty.sent call.1) = resty.Body (resty.sent call'.1).
Proof.
  cbn zeta.
  pose proof (transferRepo_request client wire transferURL newUser repoName token)
    as (Hm & Hu & Hb & _ & Ha & _).
  pose proof (transferRepo_request client wire transferURL newUser repoName token')
    as (Hm' & Hu' & Hb' & _ & _).
  cbn zeta in *.
  rewrite !transferRepo_exchange in *.
  destruct (Post_fields client wire transferURL
              (transferRequest client newUser repoName token))
    as (Hs & _).
  destruct (Post_fields client wire transferURL
              (transferRequest client newUser repoName token'))
    as (Hs' & _).
  split_and!.
  2: { rewrite Hs, Hs'.
       unfold resty.handleContentType, transferRequest, resty.SetHeader,
         resty.SetBody.
       cbn [resty.Header resty.Body resty.Method resty.URL resty.R].
       rewrite !lookup_insert_ne by done. rewrite lookup_empty.
       cbn [resty.Header resty.Body resty.Method resty.URL].
       rewrite !(delete_insert_ne _ "Authorization") by done.
       by rewrite !delete_insert_eq. }
  all: congruence.
Qed.

(** X9.  When the network answers a repository the same way whenever it is
    called, the final tally does not depend on the schedule or on the number
    of workers: at the end of main, [successCount] is the number of entries
    of [allRepos] whose transfer returns nil (an entry listed twice counts
    twice) and [failureCount] the number of the others. *)
Theorem final_tally_is_that_of_the_list (r : Run) (s : State) :
  1 ≤ numWorkers r →
  (∀ n repoName, remote r n repoName = remote r 0%nat repoName) →
  rtc (step r) (initial r) s → pc s = MExit →
  successCount s = length (filter (λ repoName, errOf r repoName = None) (allRepos r))
  ∧ failureCount s
    = length (filter (λ repoName, errOf r repoName ≠ None) (allRepos r)).
Proof.
  intros HW Hstateless Hs Hpc. pose proof (inv_reachable r s HW Hs) as HI.
  destruct (inv_exit r s HW HI Hpc) as (_ & Hj & Hres & Htal).
  rewrite summarise_counts, Hres in Htal. injection Htal as -> ->.
  pose proof (calls_errOf r s Hstateless HI) as Herr.
  assert (∀ h : option string → nat,
            sum_list_with (λ c, h (c_err c)) (calls s)
            = sum_list_with (λ repoName, h (errOf r repoName)) (allRepos r))
    as Hsum.
  { intros h. rewrite <- Hj.
    rewrite <- (sum_list_with_fmap_ext h (λ c, h (c_err c)) c_err (calls s))
      by done.
    rewrite Herr. by apply sum_list_with_fmap_ext. }
  rewrite !length_filter_sum. split.
  - etrans; [|exact (Hsum (λ e, if decide (e = None) then 1%nat else 0%nat))].
    apply sum_list_with_fmap_ext. intros c. unfold message.
    rewrite parsesAsSuccess_resultMessage. by destruct (c_err c).
  - etrans; [|exact (Hsum (λ e, if decide (e ≠ None) then 1%nat else 0%nat))].
    apply sum_list_with_fmap_ext. intros c. unfold message.
    rewrite parsesAsSuccess_resultMessage. by destruct (c_err c).
Qed.

(** X9 on the sample run. *)
Lemma final_tally_is_that_of_the_list_witness :
  successCount (runFor sampleRun 36 (initial sampleRun))
  = length (filter (λ repoName, errOf sampleRun repoName = None)
              (allRepos sampleRun)).
Proof.
  assert (1 ≤ numWorkers sampleRun) as HW by (simpl; lia).
  exact (proj1 (final_tally_is_that_of_the_list sampleRun
                  (runFor sampleRun 36 (initial sampleRun)) HW
                  (λ _ _, eq_refl)
                  (runFor_rtc sampleRun 36 (initial sampleRun)) sample_exit)).
Defined.

(** ** main_test.go *)

Lemma Contains_app_r prefix s substr :
  Contains s substr = true → Contains (prefix +:+ s) substr = true.
Proof.
  intros Hs. induction prefix as [|c prefix IH]; [done|].
  change (String c prefix +:+ s) with (String c (prefix +:+ s)).
  cbn [Contains]. rewrite IH. apply orb_true_r.
Qed.

Lemma HasPrefix_app s rest : HasPrefix (s +:+ rest) s = true.
Proof.
  induction s as [|c s IH]; [by destruct rest|].
  change (String c s +:+ rest) with (String c (s +:+ rest)).
  cbn [HasPrefix]. by rewrite Ascii.eqb_refl, IH.
Qed.

Lemma dropBytes_app s rest : dropBytes (String.length s) (s +:+ rest) = rest.
Proof. induction s as [|c s IH]; [by destruct rest|]. exact IH. Qed.

(** X10.  Six of the seven cases of [TestTransferRepo] pass against
    [transferRepo], for any URL of the test server.  The seventh, the
    network error, fails: the test expects the error to contain "failed to
    send transfer request", while [transferRepo] returns "client request for
    repo ... failed: ..." followed by the error of the client; so the case
    fails whenever that error does not itself contain the expected words. *)
Theorem TestTransferRepo_outcome (serverURL dialError : string) :
  Contains dialError "failed to send transfer request" = false →
  main_test.passes serverURL dialError <$> main_test.tests
  = [true; true; true; true; true; true; false].
Proof.
  intros Hdial.
  assert (∀ tc, main_test.serverHandler tc = Some main_test.successfulTransfer →
            main_test.urlOriginalUser tc = "test-orig-user" →
            main_test.urlRepo tc = "test-repo" →
            main_test.githubToken tc = "test-token" →
            main_test.expectError tc = false →
            main_test.passes serverURL dialError tc = true) as Hfirst.
  { intros tc Hh Hu Hr Htok Hexp. unfold main_test.passes, main_test.run.
    rewrite Hh, Hu, Hr, Htok, Hexp.
    pose proof (transferRepo_request resty.New
                  {| resty.execute :=
                       λ _ _, resty.Answered (main_test.response main_test.successfulTransfer);
                     resty.jitter := λ _, 0 |}
                  (serverURL +:+ "/repos/" +:+ "test-orig-user" +:+ "/" +:+ "test-repo"
                   +:+ "/transfer")
                  (main_test.newUser tc) (main_test.repoName tc) "test-token")
      as (Hm & Hurl & _ & _ & Hauth & _).
    cbn zeta in *.
    assert ((transferRepo resty.New
               {| resty.execute :=
                    λ _ _, resty.Answered (main_test.response main_test.successfulTransfer);
                  resty.jitter := λ _, 0 |}
               (serverURL +:+ "/repos/" +:+ "test-orig-user" +:+ "/" +:+ "test-repo"
                +:+ "/transfer")
               (main_test.newUser tc) (main_test.repoName tc) "test-token").2 = None)
      as Herr.
    { unfold transferRepo. cbn [snd].
      destruct (Post_fields resty.New
                  {| resty.execute :=
                       λ _ _, resty.Answered (main_test.response main_test.successfulTransfer);
                     resty.jitter := λ _, 0 |}
                  (serverURL +:+ "/repos/" +:+ "test-orig-user" +:+ "/" +:+ "test-repo"
                   +:+ "/transfer")
                  (transferRequest resty.New (main_test.newUser tc)
                     (main_test.repoName tc) "test-token")) as (_ & _ & _ & ->).
      reflexivity. }
    destruct (transferRepo _ _ _ _ _ _) as [ex err]. cbn [fst snd] in *. subst err.
    unfold main_test.successfulTransfer, main_test.complaints.
    rewrite Hm, Hurl, Hauth, dropBytes_app. reflexivity. }
  unfold main_test.tests. rewrite !fmap_cons, fmap_nil.
  f_equal; [by apply Hfirst|].
  f_equal; try (by vm_compute).
  unfold main_test.passes, main_test.run.
  cbn [main_test.serverHandler main_test.expectError main_test.repoName
       main_test.expectedErrorMsgSubstring].
  match goal with |- context [transferRepo ?c ?w ?u ?nu ?rn ?tk] =>
    assert ((transferRepo c w u nu rn tk).2
            = Some ("client request for repo " +:+ rn +:+ " failed: " +:+ dialError))
      as Herr;
    [unfold transferRepo; cbn [snd];
     destruct (Post_fields c w u (transferRequest c nu rn tk)) as (_ & _ & _ & ->);
     reflexivity|];
    destruct (transferRepo c w u nu rn tk) as [ex err] end.
  cbn [snd] in Herr. subst err. cbn [app].
  assert (Contains
            ("client request for repo " +:+ "test-repo-network-error" +:+ " failed: "
             +:+ dialError) "failed to send transfer request" = false) as ->; [|done].
  repeat (rewrite append_String; cbn [Contains HasPrefix Ascii.eqb Bool.eqb andb orb]).
  exact Hdial.
Qed.

(** X10 for a server on the loopback interface and a name that does not
    resolve. *)
Lemma TestTransferRepo_outcome_witness :
  main_test.passes "http://127.0.0.1:41000"
    "dial tcp: lookup .invalidlocaldomain: no such host"
  <$> main_test.tests
  = [true; true; true; true; true; true; false].
Proof.
  apply (TestTransferRepo_outcome "http://127.0.0.1:41000"
           "dial tcp: lookup .invalidlocaldomain: no such host").
  vm_compute. reflexivity.
Defined.
